(** * PLSCarousel: the slide-transition and autoplay state machine

    A shallow embedding of the [PLSCarousel] class (carousel component of
    PLS World News) and the properties of its navigation, transition,
    autoplay and gesture logic.

    Conventions of the embedding.
    - JavaScript integers (slide indices, pointer coordinates, the clock in
      milliseconds) are [Z].
    - The carousel instance ([this]) is the record [Carousel]; the closure
      variables of [bindSwipeEvents] are the record [SwipeVars]; the host
      environment (clock, pending [setTimeout] callbacks, the custom events
      dispatched on the element) completes the [Page].
    - A slide or a dot is represented by the one class the code toggles on
      it, ['active'].  Inline style writes that the code never reads back
      (opacity, transition, cursor), the [requestAnimationFrame] callback
      that only writes opacity, [innerHTML] other than the play/pause icon
      and the [aria-label] attributes are presentation only and are left
      out; the [translateX] offset of the track is kept.
    - The host element is present ([init]'s null guard is not taken).
    - A method either completes normally or throws a [TypeError] (property
      access on [undefined]); the state reached at the throw is kept. *)

From stdpp Require Import base tactics option list numbers strings.

Local Open Scope Z_scope.

(** ** Data model *)

Record Options := mkOptions {
  autoplay : bool;
  autoplayDelay : Z;
  loop : bool;
  showDots : bool;
  showArrows : bool;
  swipe : bool;
  fadeEffect : bool;
  pauseOnHover : bool
}.

(** The constructor's fallback defaults. *)
Definition defaultOptions : Options :=
  {| autoplay := true; autoplayDelay := 5000; loop := true; showDots := true;
     showArrows := true; swipe := true; fadeEffect := false;
     pauseOnHover := true |}.

(** Icon shown by the play/pause button. *)
Inductive Icon := fa_pause | fa_play.

(** [style.transform] of the track element [carouselInner]. *)
Inductive Transform := transform_unset | translateX (percent : Z).

Record Carousel := mkCarousel {
  options : Options;
  currentSlide : Z;
  slides : list bool;              (* 'active' class of each slide *)
  isPlaying : bool;
  autoplayTimer : option Z;        (* armed interval, with its next due time *)
  isTransitioning : bool;
  carouselInner : option Transform;
  arrowButtons : bool;                   (* prevArrow and nextArrow exist *)
  dots : option (list bool);       (* 'active' class of each dot *)
  playPauseBtn : option Icon
}.

(** Closure variables shared by the touch and mouse handlers. *)
Record SwipeVars := mkSwipeVars {
  startX : Z; startY : Z; endX : Z; endY : Z;
  isDragging : bool; isMouseDown : bool
}.

(** The callbacks handed to [setTimeout] by the two transition strategies.
    [fadeCleanup] captures the outgoing and the incoming slide. *)
Inductive Callback :=
| fadeCleanup (outgoing incoming : Z)
| slideCleanup (index : Z).

(** Custom events dispatched on the host element, with their [detail]. *)
Inductive CustomEvent :=
| slideChange (from to : Z)
| slideChanged (index : Z).

Record Page := mkPage {
  this : Carousel;
  vars : SwipeVars;
  now : Z;                               (* clock, in ms *)
  timeouts : list (Z * Callback);        (* pending setTimeout: due time, callback *)
  dispatched : list CustomEvent          (* events dispatched so far, oldest first *)
}.

(** Field updates. *)
Definition set_currentSlide (v : Z) (c : Carousel) : Carousel :=
  mkCarousel (options c) v (slides c) (isPlaying c) (autoplayTimer c)
    (isTransitioning c) (carouselInner c) (arrowButtons c) (dots c) (playPauseBtn c).
Definition set_slides (v : list bool) (c : Carousel) : Carousel :=
  mkCarousel (options c) (currentSlide c) v (isPlaying c) (autoplayTimer c)
    (isTransitioning c) (carouselInner c) (arrowButtons c) (dots c) (playPauseBtn c).
Definition set_isPlaying (v : bool) (c : Carousel) : Carousel :=
  mkCarousel (options c) (currentSlide c) (slides c) v (autoplayTimer c)
    (isTransitioning c) (carouselInner c) (arrowButtons c) (dots c) (playPauseBtn c).
Definition set_autoplayTimer (v : option Z) (c : Carousel) : Carousel :=
  mkCarousel (options c) (currentSlide c) (slides c) (isPlaying c) v
    (isTransitioning c) (carouselInner c) (arrowButtons c) (dots c) (playPauseBtn c).
Definition set_isTransitioning (v : bool) (c : Carousel) : Carousel :=
  mkCarousel (options c) (currentSlide c) (slides c) (isPlaying c)
    (autoplayTimer c) v (carouselInner c) (arrowButtons c) (dots c) (playPauseBtn c).
Definition set_carouselInner (v : option Transform) (c : Carousel) : Carousel :=
  mkCarousel (options c) (currentSlide c) (slides c) (isPlaying c)
    (autoplayTimer c) (isTransitioning c) v (arrowButtons c) (dots c) (playPauseBtn c).
Definition set_arrowButtons (v : bool) (c : Carousel) : Carousel :=
  mkCarousel (options c) (currentSlide c) (slides c) (isPlaying c)
    (autoplayTimer c) (isTransitioning c) (carouselInner c) v (dots c)
    (playPauseBtn c).
Definition set_dots (v : option (list bool)) (c : Carousel) : Carousel :=
  mkCarousel (options c) (currentSlide c) (slides c) (isPlaying c)
    (autoplayTimer c) (isTransitioning c) (carouselInner c) (arrowButtons c) v
    (playPauseBtn c).
Definition set_playPauseBtn (v : option Icon) (c : Carousel) : Carousel :=
  mkCarousel (options c) (currentSlide c) (slides c) (isPlaying c)
    (autoplayTimer c) (isTransitioning c) (carouselInner c) (arrowButtons c) (dots c) v.

Definition on_this (f : Carousel -> Carousel) (p : Page) : Page :=
  mkPage (f (this p)) (vars p) (now p) (timeouts p) (dispatched p).
Definition set_vars (v : SwipeVars) (p : Page) : Page :=
  mkPage (this p) v (now p) (timeouts p) (dispatched p).
Definition set_now (t : Z) (p : Page) : Page :=
  mkPage (this p) (vars p) t (timeouts p) (dispatched p).
Definition set_timeouts (l : list (Z * Callback)) (p : Page) : Page :=
  mkPage (this p) (vars p) (now p) l (dispatched p).

(** [this.carousel.dispatchEvent(new CustomEvent(...))]. *)
Definition dispatchEvent (e : CustomEvent) (p : Page) : Page :=
  mkPage (this p) (vars p) (now p) (timeouts p) (dispatched p ++ [e]).

(** [setTimeout(cb, delay)]. *)
Definition setTimeout (cb : Callback) (delay : Z) (p : Page) : Page :=
  set_timeouts (timeouts p ++ [(now p + delay, cb)]) p.

(** ** Completions *)

Inductive Completion :=
| Normal (p : Page)
| TypeError (p : Page).

Definition andThen (c : Completion) (k : Page -> Completion) : Completion :=
  match c with
  | Normal p => k p
  | TypeError p => TypeError p
  end.

Notation "c >>- k" := (andThen c k) (at level 61, k at level 200, left associativity).

(** The state left behind, whichever way the method completed: an exception
    that escapes an event listener or a timer callback is reported and the
    event loop goes on. *)
Definition outcome (c : Completion) : Page :=
  match c with
  | Normal p => p
  | TypeError p => p
  end.

(** ** Arrays *)

(** [arr[i]]: [undefined] outside the array. *)
Definition item {A} (arr : list A) (i : Z) : option A :=
  if decide (0 <= i) then arr !! Z.to_nat i else None.

(** [arr.forEach(el => el.classList.remove('active'))]. *)
Definition removeActive (arr : list bool) : list bool := (fun _ => false) <$> arr.

(** [arr[i].classList.add('active')], for an index known to be in the array. *)
Definition addActive (arr : list bool) (i : Z) : list bool :=
  <[Z.to_nat i := true]> arr.

(** [arr[i].classList.remove('active')]. *)
Definition dropActive (arr : list bool) (i : Z) : list bool :=
  <[Z.to_nat i := false]> arr.

Definition slideCount (c : Carousel) : Z := Z.of_nat (length (slides c)).

(** ** Autoplay *)

Definition pauseAutoplay (p : Page) : Completion :=
  let p1 := match autoplayTimer (this p) with
            | Some _ => on_this (set_autoplayTimer None) p
            | None => p
            end in
  let p2 := match playPauseBtn (this p1) with
            | Some _ => on_this (set_playPauseBtn (Some fa_play)) p1
            | None => p1
            end in
  Normal p2.

(** [setInterval(() => this.nextSlide(), delay)]: the interval is due first
    [delay] ms from now (a negative delay counts as 0). *)
Definition setInterval (delay : Z) (p : Page) : Page :=
  on_this (set_autoplayTimer (Some (now p + Z.max 0 delay))) p.

Definition startAutoplay (p : Page) : Completion :=
  if negb (autoplay (options (this p))) || (slideCount (this p) <=? 1)
  then Normal p
  else
    pauseAutoplay p >>- fun p1 =>
    let p2 := setInterval (autoplayDelay (options (this p1))) p1 in
    let p3 := on_this (set_isPlaying true) p2 in
    let p4 := match playPauseBtn (this p3) with
              | Some _ => on_this (set_playPauseBtn (Some fa_pause)) p3
              | None => p3
              end in
    Normal p4.

Definition toggleAutoplay (p : Page) : Completion :=
  if isPlaying (this p)
  then pauseAutoplay (on_this (set_isPlaying false) p)
  else startAutoplay (on_this (set_isPlaying true) p).

(** ** Transitions *)

Definition updateSlideState (index : Z) (p : Page) : Completion :=
  let p1 := on_this (fun c => set_slides (removeActive (slides c)) c) p in
  match item (slides (this p1)) index with
  | None => TypeError p1
  | Some _ =>
    let p2 := on_this (fun c => set_slides (addActive (slides c) index) c) p1 in
    let dotsDone :=
      match dots (this p2) with
      | None => Normal p2
      | Some ds =>
        let p3 := on_this (set_dots (Some (removeActive ds))) p2 in
        match item ds index with
        | None => TypeError p3
        | Some _ =>
          Normal (on_this (set_dots (Some (addActive (removeActive ds) index))) p3)
        end
      end in
    dotsDone >>- fun p4 =>
    let p5 := on_this (set_currentSlide index) p4 in
    let p6 := on_this (set_isTransitioning false) p5 in
    Normal (dispatchEvent (slideChanged index) p6)
  end.

Definition setSlide (index : Z) (p : Page) : Completion :=
  let p1 := on_this (fun c => set_slides (removeActive (slides c)) c) p in
  match item (slides (this p1)) index with
  | None => TypeError p1
  | Some _ =>
    let p2 := on_this (fun c => set_slides (addActive (slides c) index) c) p1 in
    let dotsDone :=
      match dots (this p2) with
      | None => Normal p2
      | Some ds =>
        let p3 := on_this (set_dots (Some (removeActive ds))) p2 in
        match item ds index with
        | None => TypeError p3
        | Some _ =>
          Normal (on_this (set_dots (Some (addActive (removeActive ds) index))) p3)
        end
      end in
    dotsDone >>- fun p4 =>
    let p5 := on_this (set_currentSlide index) p4 in
    (if fadeEffect (options (this p5))
     then Normal p5
     else match carouselInner (this p5) with
          | None => TypeError p5
          | Some _ =>
            Normal (on_this (set_carouselInner (Some (translateX (- index * 100)))) p5)
          end) >>- fun p6 =>
    Normal (on_this (set_isTransitioning false) p6)
  end.

Definition fadeToSlide (index : Z) (p : Page) : Completion :=
  let current := currentSlide (this p) in
  match item (slides (this p)) index with
  | None => TypeError p
  | Some _ =>
    let p1 := on_this (fun c => set_slides (addActive (slides c) index) c) p in
    match item (slides (this p1)) current with
    | None => TypeError p1
    | Some _ => Normal (setTimeout (fadeCleanup current index) 500 p1)
    end
  end.

Definition slideToSlide (index : Z) (p : Page) : Completion :=
  match carouselInner (this p) with
  | None => TypeError p
  | Some _ =>
    let p1 := on_this (set_carouselInner (Some (translateX (- index * 100)))) p in
    Normal (setTimeout (slideCleanup index) 500 p1)
  end.

(** The callback bodies, run when the timeout fires. *)
Definition runCallback (cb : Callback) (p : Page) : Completion :=
  match cb with
  | fadeCleanup outgoing incoming =>
    updateSlideState incoming
      (on_this (fun c => set_slides (dropActive (slides c) outgoing) c) p)
  | slideCleanup index => updateSlideState index p
  end.

(** ** Navigation *)

(** The "Handle looping" block of [goToSlide]. *)
Definition handleLooping (loop : bool) (slideCount index : Z) : Z :=
  if index >=? slideCount then (if loop then 0 else slideCount - 1)
  else if index <? 0 then (if loop then slideCount - 1 else 0)
  else index.

Definition goToSlide (index : Z) (animate : bool) (p : Page) : Completion :=
  if isTransitioning (this p) || bool_decide (index = currentSlide (this p))
  then Normal p
  else
    let slideCount := slideCount (this p) in
    let index := handleLooping (loop (options (this p))) slideCount index in
    if negb animate then setSlide index p
    else
      let p1 := on_this (set_isTransitioning true) p in
      let p2 := dispatchEvent (slideChange (currentSlide (this p1)) index) p1 in
      if fadeEffect (options (this p2))
      then fadeToSlide index p2
      else slideToSlide index p2.

Definition nextSlide (p : Page) : Completion :=
  let nextIndex := currentSlide (this p) + 1 in
  goToSlide nextIndex true p.

Definition prevSlide (p : Page) : Completion :=
  let prevIndex := currentSlide (this p) - 1 in
  goToSlide prevIndex true p.

(** ** Gesture recognizer ([bindSwipeEvents]) *)

Definition handleTouchStart (clientX clientY : Z) (p : Page) : Completion :=
  let v := vars p in
  let p1 := set_vars (mkSwipeVars clientX clientY (endX v) (endY v) true
                        (isMouseDown v)) p in
  pauseAutoplay p1.

Definition handleTouchMove (clientX clientY : Z) (p : Page) : Completion :=
  let v := vars p in
  if negb (isDragging v) then Normal p
  else Normal (set_vars (mkSwipeVars (startX v) (startY v) clientX clientY
                           (isDragging v) (isMouseDown v)) p).

Definition handleTouchEnd (p : Page) : Completion :=
  let v := vars p in
  if negb (isDragging v) then Normal p
  else
    let p1 := set_vars (mkSwipeVars (startX v) (startY v) (endX v) (endY v)
                          false (isMouseDown v)) p in
    let deltaX := endX v - startX v in
    let deltaY := endY v - startY v in
    let minSwipeDistance := 50 in
    (if (Z.abs deltaX >? Z.abs deltaY) && (Z.abs deltaX >? minSwipeDistance)
     then (if deltaX >? 0 then prevSlide p1 else nextSlide p1)
     else Normal p1) >>- fun p2 =>
    if isPlaying (this p2) then startAutoplay p2 else Normal p2.

Definition handleMouseDown (clientX clientY : Z) (p : Page) : Completion :=
  let v := vars p in
  Normal (set_vars (mkSwipeVars clientX clientY (endX v) (endY v)
                      (isDragging v) true) p).

Definition handleMouseMove (clientX clientY : Z) (p : Page) : Completion :=
  let v := vars p in
  if negb (isMouseDown v) then Normal p
  else Normal (set_vars (mkSwipeVars (startX v) (startY v) clientX clientY
                           (isDragging v) (isMouseDown v)) p).

Definition handleMouseUp (p : Page) : Completion :=
  let v := vars p in
  if negb (isMouseDown v) then Normal p
  else
    let p1 := set_vars (mkSwipeVars (startX v) (startY v) (endX v) (endY v)
                          (isDragging v) false) p in
    let deltaX := endX v - startX v in
    let minSwipeDistance := 50 in
    if Z.abs deltaX >? minSwipeDistance
    then (if deltaX >? 0 then prevSlide p1 else nextSlide p1)
    else Normal p1.

(** The second [mouseleave] listener, registered by [bindSwipeEvents]. *)
Definition handleMouseLeaveSwipe (p : Page) : Completion :=
  let v := vars p in
  Normal (set_vars (mkSwipeVars (startX v) (startY v) (endX v) (endY v)
                      (isDragging v) false) p).

(** ** Listeners bound by [bindEvents] *)

Inductive Key := ArrowLeft | ArrowRight | Space | OtherKey.

Inductive DomEvent :=
| click_prevArrow
| click_nextArrow
| click_dot (slideIndex : Z)
| click_playPauseBtn
| keydown (key : Key)
| mouseenter
| mouseleave
| touchstart (clientX clientY : Z)
| touchmove (clientX clientY : Z)
| touchend
| mousedown (clientX clientY : Z)
| mousemove (clientX clientY : Z)
| mouseup
| visibilitychange (hidden : bool).

Definition handleKeyDown (key : Key) (p : Page) : Completion :=
  match key with
  | ArrowLeft => prevSlide p
  | ArrowRight => nextSlide p
  | Space => toggleAutoplay p
  | OtherKey => Normal p
  end.

Definition handleMouseEnter (p : Page) : Completion := pauseAutoplay p.

Definition handleMouseLeave (p : Page) : Completion :=
  if isPlaying (this p) then startAutoplay p else Normal p.

Definition handleVisibilityChange (hidden : bool) (p : Page) : Completion :=
  if hidden then pauseAutoplay p
  else if isPlaying (this p) then startAutoplay p
  else Normal p.

(** What the listeners bound by [bindEvents] do with a DOM event.  Whether a
    listener was bound depends on the options and on the controls created,
    neither of which changes after construction; an event with no listener
    (or on a control that was not created) changes nothing. *)
Definition listen (e : DomEvent) (p : Page) : Page :=
  let c := this p in
  match e with
  | click_prevArrow => if arrowButtons c then outcome (prevSlide p) else p
  | click_nextArrow => if arrowButtons c then outcome (nextSlide p) else p
  | click_dot slideIndex =>
    match dots c with
    | Some ds =>
      match item ds slideIndex with
      | Some _ => outcome (goToSlide slideIndex true p)
      | None => p
      end
    | None => p
    end
  | click_playPauseBtn =>
    match playPauseBtn c with
    | Some _ => outcome (toggleAutoplay p)
    | None => p
    end
  | keydown key => outcome (handleKeyDown key p)
  | mouseenter =>
    if pauseOnHover (options c) then outcome (handleMouseEnter p) else p
  | mouseleave =>
    let p1 := if pauseOnHover (options c) then outcome (handleMouseLeave p)
              else p in
    if swipe (options c) then outcome (handleMouseLeaveSwipe p1) else p1
  | touchstart x y =>
    if swipe (options c) then outcome (handleTouchStart x y p) else p
  | touchmove x y =>
    if swipe (options c) then outcome (handleTouchMove x y p) else p
  | touchend => if swipe (options c) then outcome (handleTouchEnd p) else p
  | mousedown x y =>
    if swipe (options c) then outcome (handleMouseDown x y p) else p
  | mousemove x y =>
    if swipe (options c) then outcome (handleMouseMove x y p) else p
  | mouseup => if swipe (options c) then outcome (handleMouseUp p) else p
  | visibilitychange hidden => outcome (handleVisibilityChange hidden p)
  end.

(** ** Construction and disposal *)

Definition setupCarousel (children : list bool) (p : Page) : Completion :=
  let p1 := on_this (set_slides children) p in
  if decide (length (slides (this p1)) = 0%nat) then Normal p1
  else Normal (on_this (set_carouselInner (Some transform_unset)) p1).

Definition createArrows (p : Page) : Completion :=
  Normal (on_this (set_arrowButtons true) p).

Definition createDots (p : Page) : Completion :=
  Normal (on_this (fun c => set_dots (Some (removeActive (slides c))) c) p).

Definition createPlayPauseButton (p : Page) : Completion :=
  if negb (autoplay (options (this p))) then Normal p
  else Normal (on_this (set_playPauseBtn (Some fa_pause)) p).

Definition createControls (p : Page) : Completion :=
  if slideCount (this p) <=? 1 then Normal p
  else
    (if showArrows (options (this p)) then createArrows p else Normal p)
    >>- fun p1 =>
    (if showDots (options (this p1)) then createDots p1 else Normal p1)
    >>- fun p2 =>
    createPlayPauseButton p2.

Definition init (children : list bool) (p : Page) : Completion :=
  setupCarousel children p >>- fun p1 =>
  createControls p1 >>- fun p2 =>
  (if autoplay (options (this p2)) then startAutoplay p2 else Normal p2)
  >>- fun p3 =>
  goToSlide 0 false p3.

(** [new PLSCarousel(element, options)] at time [t0], on an element whose
    children carry the given 'active' classes; [opts] are the merged
    options. *)
Definition construct (opts : Options) (children : list bool) (t0 : Z)
  : Completion :=
  init children
    {| this := {| options := opts; currentSlide := 0; slides := [];
                  isPlaying := autoplay opts; autoplayTimer := None;
                  isTransitioning := false; carouselInner := None;
                  arrowButtons := false; dots := None; playPauseBtn := None |};
       vars := mkSwipeVars 0 0 0 0 false false;
       now := t0; timeouts := []; dispatched := [] |}.

(** [destroy]: the [removeEventListener] calls name functions that were never
    registered and remove nothing; the controls leave the document but stay
    referenced by the instance. *)
Definition destroy (p : Page) : Completion :=
  pauseAutoplay p >>- fun p1 =>
  match carouselInner (this p1) with
  | Some _ => Normal (on_this (fun c => set_slides (removeActive (slides c)) c) p1)
  | None => Normal p1
  end.

(** ** The event loop *)

Inductive Call :=
| call_nextSlide
| call_prevSlide
| call_goToSlide (index : Z) (animate : bool)
| call_startAutoplay
| call_pauseAutoplay
| call_toggleAutoplay
| call_destroy.

Definition invoke (c : Call) (p : Page) : Completion :=
  match c with
  | call_nextSlide => nextSlide p
  | call_prevSlide => prevSlide p
  | call_goToSlide index animate => goToSlide index animate p
  | call_startAutoplay => startAutoplay p
  | call_pauseAutoplay => pauseAutoplay p
  | call_toggleAutoplay => toggleAutoplay p
  | call_destroy => destroy p
  end.

Inductive Task :=
| Invoke (c : Call)          (* a method call by a collaborator *)
| Event (e : DomEvent)       (* user input *)
| TimeoutFires               (* the oldest pending setTimeout callback runs *)
| IntervalFires              (* the autoplay interval ticks *)
| Elapse (d : Z).            (* d ms pass *)

(** One turn of the event loop; [None] when the task cannot run now (a timer
    never fires before it is due). *)
Definition step (t : Task) (p : Page) : option Page :=
  match t with
  | Invoke c => Some (outcome (invoke c p))
  | Event e => Some (listen e p)
  | TimeoutFires =>
    match timeouts p with
    | (due, cb) :: rest =>
      if decide (due <= now p)
      then Some (outcome (runCallback cb (set_timeouts rest p)))
      else None
    | [] => None
    end
  | IntervalFires =>
    match autoplayTimer (this p) with
    | Some due =>
      if decide (due <= now p)
      then Some (outcome (nextSlide
                   (setInterval (autoplayDelay (options (this p))) p)))
      else None
    | None => None
    end
  | Elapse d => if decide (0 <= d) then Some (set_now (now p + d) p) else None
  end.

(** Running a list of tasks in order. *)
Fixpoint run (ts : list Task) (p : Page) : option Page :=
  match ts with
  | [] => Some p
  | t :: ts' =>
    match step t p with
    | Some p' => run ts' p'
    | None => None
    end
  end.

(** States a carousel built from [children] with [opts] can be in. *)
Inductive reachable (opts : Options) (children : list bool) : Page -> Prop :=
| reach_construct t0 p :
    construct opts children t0 = Normal p -> reachable opts children p
| reach_step t p p' :
    reachable opts children p -> step t p = Some p' ->
    reachable opts children p'.

(** ** Auto-initialisation ([DOMContentLoaded]) *)

(** The [data-*] attributes the auto-initialiser reads on a [[data-carousel]]
    element; [None] is an absent attribute ([undefined]). *)
Record Dataset := mkDataset {
  data_autoplay : option string;
  data_autoplayDelay : option string;
  data_loop : option string;
  data_showDots : option string;
  data_showArrows : option string;
  data_swipe : option string;
  data_fadeEffect : option string;
  data_pauseOnHover : option string
}.

(** [attr !== 'false']. *)
Definition notFalse (attr : option string) : bool :=
  negb (bool_decide (attr = Some "false"%string)).

(** [attr === 'true']. *)
Definition isTrue (attr : option string) : bool :=
  bool_decide (attr = Some "true"%string).

(** [x || d] on a number: [NaN] ([None]) and 0 are falsy. *)
Definition orDefault (x : option Z) (d : Z) : Z :=
  match x with
  | Some v => if v =? 0 then d else v
  | None => d
  end.

Section AutoInit.
(** The built-in [parseInt] on a string; [None] is [NaN]. *)
Variable parseInt : string -> option Z.

(** [parseInt(attr)]: an absent attribute parses as [NaN]. *)
Definition parseIntAttr (attr : option string) : option Z :=
  match attr with
  | Some s => parseInt s
  | None => None
  end.

(** The options record the auto-initialiser builds from the attributes. *)
Definition datasetOptions (d : Dataset) : Options :=
  {| autoplay := notFalse (data_autoplay d);
     autoplayDelay := orDefault (parseIntAttr (data_autoplayDelay d)) 5000;
     loop := notFalse (data_loop d);
     showDots := notFalse (data_showDots d);
     showArrows := notFalse (data_showArrows d);
     swipe := notFalse (data_swipe d);
     fadeEffect := isTrue (data_fadeEffect d);
     pauseOnHover := notFalse (data_pauseOnHover d) |}.

(** [new PLSCarousel(carousel, options)] for one [[data-carousel]] element. *)
Definition autoInit (d : Dataset) (children : list bool) (t0 : Z) : Completion :=
  construct (datasetOptions d) children t0.
End AutoInit.

(** An element with no [data-*] attribute besides [data-carousel]. *)
Definition noAttributes : Dataset :=
  mkDataset None None None None None None None None.

(** * Vocabulary of the properties *)

(** ** The invariant of a carousel with at least one slide *)

(** The slide a pending callback will settle on. *)
Definition settles_on (cb : Callback) : Z :=
  match cb with
  | fadeCleanup _ incoming => incoming
  | slideCleanup index => index
  end.

Definition callback_ok (n : nat) (cb : Callback) : Prop :=
  match cb with
  | fadeCleanup outgoing incoming =>
    0 <= outgoing < Z.of_nat n /\ 0 <= incoming < Z.of_nat n
  | slideCleanup index => 0 <= index < Z.of_nat n
  end.

Record Inv (opts : Options) (n : nat) (p : Page) : Prop := mkInv {
  inv_options : options (this p) = opts;
  inv_slides : length (slides (this p)) = n;
  inv_current : 0 <= currentSlide (this p) < Z.of_nat n;
  inv_inner : is_Some (carouselInner (this p));
  inv_dots : forall ds, dots (this p) = Some ds -> length ds = n;
  inv_controls :
    (n <= 1)%nat ->
    arrowButtons (this p) = false /\ dots (this p) = None /\
    playPauseBtn (this p) = None;
  inv_timer :
    is_Some (autoplayTimer (this p)) -> autoplay opts = true /\ (1 < n)%nat;
  inv_pending :
    if isTransitioning (this p)
    then exists due cb, timeouts p = [(due, cb)] /\ callback_ok n cb
    else timeouts p = []
}.

(** ** The constructed carousel *)

(** The state the constructor leaves ([construct_eq]): it completes
    normally on every container, creates controls and arms the interval only
    when there is more than one slide, and leaves the panels' classes as it
    found them. *)
Definition constructed (opts : Options) (children : list bool) (t0 : Z) : Page :=
  let many := 1 <? Z.of_nat (length children) in
  {| this :=
       {| options := opts;
          currentSlide := 0;
          slides := children;
          isPlaying := autoplay opts;
          autoplayTimer :=
            if autoplay opts && many
            then Some (t0 + Z.max 0 (autoplayDelay opts)) else None;
          isTransitioning := false;
          carouselInner :=
            match children with [] => None | _ => Some transform_unset end;
          arrowButtons := many && showArrows opts;
          dots := if many && showDots opts
                  then Some (removeActive children) else None;
          playPauseBtn := if many && autoplay opts then Some fa_pause else None |};
     vars := mkSwipeVars 0 0 0 0 false false;
     now := t0; timeouts := []; dispatched := [] |}.

(** ** Transitions *)

(** The part of the state that navigation reads and writes. *)
Definition nav_state (p : Page) : Z * bool * list (Z * Callback) * list CustomEvent :=
  (currentSlide (this p), isTransitioning (this p), timeouts p, dispatched p).

(** [next()] on a settled carousel, then the 500 ms of the transition and
    its completion callback. *)
Definition next_settled (p : Page) : option Page :=
  run [Invoke call_nextSlide; Elapse 500; TimeoutFires] p.

(** [k] settled [next()] calls in a row, with the index settled on after
    each of them. *)
Fixpoint tour (k : nat) (p : Page) : option (list Z * Page) :=
  match k with
  | O => Some ([], p)
  | S k' =>
    match next_settled p with
    | Some p1 =>
      match tour k' p1 with
      | Some (visited, q) => Some (currentSlide (this p1) :: visited, q)
      | None => None
      end
    | None => None
    end
  end.

(** A navigation request issued on [p] starts one transition that settles on
    [r]: the request event is dispatched at once, the same request repeated
    with no delay is dropped, nothing but the completion callback changes
    the navigation state, the callback cannot run before 500 ms have passed,
    and when it runs it settles on [r] and dispatches [slideChanged]. *)
Definition serialized_transition
    (request : Page -> Completion) (p : Page) (r : Z) : Prop :=
  let s := currentSlide (this p) in
  exists p1 cb,
    request p = Normal p1 /\
    isTransitioning (this p1) = true /\
    currentSlide (this p1) = s /\
    dispatched p1 = dispatched p ++ [slideChange s r] /\
    timeouts p1 = [(now p + 500, cb)] /\
    settles_on cb = r /\
    request p1 = Normal p1 /\
    (forall ts p', TimeoutFires ∉ ts -> run ts p1 = Some p' ->
                   nav_state p' = nav_state p1) /\
    (forall d, 0 <= d < 500 -> run [Elapse d; TimeoutFires] p1 = None) /\
    (forall d, 500 <= d ->
       exists p2,
         run [Elapse d; TimeoutFires] p1 = Some p2 /\
         isTransitioning (this p2) = false /\
         currentSlide (this p2) = r /\
         timeouts p2 = [] /\
         dispatched p2 = dispatched p ++ [slideChange s r; slideChanged r]).

(** ** Hover cycles *)

(** The pointer enters the carousel, which suspends autoplay -- the interval
    is cancelled, so no tick can run, and [isPlaying] is kept -- and then
    leaves it, after which the interval is armed again. *)
Definition hover_cycle_rearms (p : Page) : Prop :=
  exists q1 q,
    run [Event mouseenter] p = Some q1 /\
    autoplayTimer (this q1) = None /\
    step IntervalFires q1 = None /\
    isPlaying (this q1) = isPlaying (this p) /\
    run [Event mouseleave] q1 = Some q /\
    run [Event mouseenter; Event mouseleave] p = Some q /\
    is_Some (autoplayTimer (this q)) /\
    isPlaying (this q) = isPlaying (this p).

(** The interval is not armed after the pointer enters and leaves. *)
Definition hover_cycle_leaves_unarmed (p : Page) : Prop :=
  exists q,
    run [Event mouseenter; Event mouseleave] p = Some q /\
    autoplayTimer (this q) = None /\
    isPlaying (this q) = isPlaying (this p).

(** ** Concrete carousels *)

(** The default options with [loop] turned off. *)
Definition clampOptions : Options :=
  {| autoplay := true; autoplayDelay := 5000; loop := false; showDots := true;
     showArrows := true; swipe := true; fadeEffect := false;
     pauseOnHover := true |}.

(** A three-slide carousel with the default options, just constructed. *)
Definition three_slides : Page := constructed defaultOptions [false; false; false] 0.

(** A three-slide carousel settled on slide 1 after one [next()]. *)
Definition three_slides_at_1 : Page :=
  {| this :=
       {| options := defaultOptions; currentSlide := 1;
          slides := [false; true; false];
          isPlaying := true; autoplayTimer := Some 5000;
          isTransitioning := false;
          carouselInner := Some (translateX (-100));
          arrowButtons := true; dots := Some [false; true; false];
          playPauseBtn := Some fa_pause |};
     vars := mkSwipeVars 0 0 0 0 false false;
     now := 500; timeouts := [];
     dispatched := [slideChange 0 1; slideChanged 1] |}.

(** A two-slide carousel without [loop], settled on its last slide after one
    [next()] and the 500 ms of its transition. *)
Definition two_slides_at_last : Page :=
  {| this :=
       {| options := clampOptions; currentSlide := 1; slides := [false; true];
          isPlaying := true; autoplayTimer := Some 5000;
          isTransitioning := false;
          carouselInner := Some (translateX (-100));
          arrowButtons := true; dots := Some [false; true];
          playPauseBtn := Some fa_pause |};
     vars := mkSwipeVars 0 0 0 0 false false;
     now := 500; timeouts := [];
     dispatched := [slideChange 0 1; slideChanged 1] |}.

(** The same carousel right after a [prev()] call: still on its last slide,
    the transition to slide 0 in flight. *)
Definition two_slides_at_last_moving : Page :=
  {| this :=
       {| options := clampOptions; currentSlide := 1; slides := [false; true];
          isPlaying := true; autoplayTimer := Some 5000;
          isTransitioning := true;
          carouselInner := Some (translateX 0);
          arrowButtons := true; dots := Some [false; true];
          playPauseBtn := Some fa_pause |};
     vars := mkSwipeVars 0 0 0 0 false false;
     now := 500; timeouts := [(1000, slideCleanup 0)];
     dispatched := [slideChange 0 1; slideChanged 1; slideChange 1 0] |}.

(** A one-slide carousel with the default options, just constructed. *)
Definition one_slide : Page := constructed defaultOptions [false] 0.

(** A three-slide carousel 500 ms after a [next()], its completion callback
    due but not yet run. *)
Definition three_slides_moving : Page :=
  {| this :=
       {| options := defaultOptions; currentSlide := 0;
          slides := [false; false; false];
          isPlaying := true; autoplayTimer := Some 5000;
          isTransitioning := true;
          carouselInner := Some (translateX (-100));
          arrowButtons := true; dots := Some [false; false; false];
          playPauseBtn := Some fa_pause |};
     vars := mkSwipeVars 0 0 0 0 false false;
     now := 500; timeouts := [(500, slideCleanup 1)];
     dispatched := [slideChange 0 1] |}.

(** The three-slide carousel 5000 ms after construction, its autoplay
    interval due. *)
Definition three_slides_due : Page := set_now 5000 three_slides.

(** ** Mouse clicks on a control *)



(** ** Effects of the methods *)

(** The state [pauseAutoplay] leaves ([pauseAutoplay_eq]). *)
Definition paused (p : Page) : Page :=
  {| this :=
       {| options := options (this p);
          currentSlide := currentSlide (this p);
          slides := slides (this p);
          isPlaying := isPlaying (this p);
          autoplayTimer := None;
          isTransitioning := isTransitioning (this p);
          carouselInner := carouselInner (this p);
          arrowButtons := arrowButtons (this p);
          dots := dots (this p);
          playPauseBtn := (fun _ => fa_play) <$> playPauseBtn (this p) |};
     vars := vars p; now := now p; timeouts := timeouts p;
     dispatched := dispatched p |}.

(** The state [startAutoplay] leaves when it arms the interval
    ([startAutoplay_armed]). *)
Definition armed (p : Page) : Page :=
  {| this :=
       {| options := options (this p);
          currentSlide := currentSlide (this p);
          slides := slides (this p);
          isPlaying := true;
          autoplayTimer :=
            Some (now p + Z.max 0 (autoplayDelay (options (this p))));
          isTransitioning := isTransitioning (this p);
          carouselInner := carouselInner (this p);
          arrowButtons := arrowButtons (this p);
          dots := dots (this p);
          playPauseBtn := (fun _ => fa_pause) <$> playPauseBtn (this p) |};
     vars := vars p; now := now p; timeouts := timeouts p;
     dispatched := dispatched p |}.

(** The state an animated request that passes the guard leaves, [r] being
    the resolved index ([goToSlide_started]). *)
Definition started (r : Z) (p : Page) : Page :=
  let fade := fadeEffect (options (this p)) in
  {| this :=
       {| options := options (this p);
          currentSlide := currentSlide (this p);
          slides := if fade then addActive (slides (this p)) r
                    else slides (this p);
          isPlaying := isPlaying (this p);
          autoplayTimer := autoplayTimer (this p);
          isTransitioning := true;
          carouselInner := if fade then carouselInner (this p)
                           else Some (translateX (- r * 100));
          arrowButtons := arrowButtons (this p);
          dots := dots (this p);
          playPauseBtn := playPauseBtn (this p) |};
     vars := vars p; now := now p;
     timeouts :=
       timeouts p
       ++ [(now p + 500,
            if fade then fadeCleanup (currentSlide (this p)) r
            else slideCleanup r)];
     dispatched := dispatched p ++ [slideChange (currentSlide (this p)) r] |}.

(** The state a non-animated request that passes the guard leaves
    ([goToSlide_placed]). *)
Definition placed (r : Z) (p : Page) : Page :=
  {| this :=
       {| options := options (this p);
          currentSlide := r;
          slides := addActive (removeActive (slides (this p))) r;
          isPlaying := isPlaying (this p);
          autoplayTimer := autoplayTimer (this p);
          isTransitioning := false;
          carouselInner :=
            if fadeEffect (options (this p)) then carouselInner (this p)
            else Some (translateX (- r * 100));
          arrowButtons := arrowButtons (this p);
          dots := (fun ds => addActive (removeActive ds) r) <$> dots (this p);
          playPauseBtn := playPauseBtn (this p) |};
     vars := vars p; now := now p; timeouts := timeouts p;
     dispatched := dispatched p |}.

(** The state the completion callback of the one pending transition leaves
    ([TimeoutFires_completed]). *)
Definition completed (cb : Callback) (p : Page) : Page :=
  let r := settles_on cb in
  {| this :=
       {| options := options (this p);
          currentSlide := r;
          slides := addActive (removeActive (slides (this p))) r;
          isPlaying := isPlaying (this p);
          autoplayTimer := autoplayTimer (this p);
          isTransitioning := false;
          carouselInner := carouselInner (this p);
          arrowButtons := arrowButtons (this p);
          dots := (fun ds => addActive (removeActive ds) r) <$> dots (this p);
          playPauseBtn := playPauseBtn (this p) |};
     vars := vars p; now := now p; timeouts := [];
     dispatched := dispatched p ++ [slideChanged r] |}.

(** The state [destroy] leaves on a carousel that has its track
    ([destroy_destroyed]). *)
Definition destroyed (p : Page) : Page :=
  on_this (fun c => set_slides (removeActive (slides c)) c) (paused p).

(** ** Invariants of the controls, the track and the event log *)

(** The controls are those the options ask for, and the autoplay state is
    coherent: an armed interval means [isPlaying], and the play/pause button
    shows the pause icon exactly while the interval is armed. *)
Record Controls (opts : Options) (n : nat) (p : Page) : Prop := mkControls {
  ctl_arrows :
    arrowButtons (this p) = (1 <? Z.of_nat n) && showArrows opts;
  ctl_dots :
    is_Some (dots (this p)) <-> (1 <? Z.of_nat n) && showDots opts = true;
  ctl_button :
    is_Some (playPauseBtn (this p))
    <-> (1 <? Z.of_nat n) && autoplay opts = true;
  ctl_playing :
    is_Some (autoplayTimer (this p)) -> isPlaying (this p) = true;
  ctl_icon :
    forall icon, playPauseBtn (this p) = Some icon ->
                 (icon = fa_pause <-> is_Some (autoplayTimer (this p)))
}.

(** The slide on display: the one the pending transition leads to, or the
    current one when none is pending. *)
Definition shown (p : Page) : Z :=
  match timeouts p with
  | (_, cb) :: _ => settles_on cb
  | [] => currentSlide (this p)
  end.

(** The track offset agrees with the slide on display: a fade carousel never
    moves its track; a displacement carousel has it at [-100%] times the
    slide on display (an unset offset standing for slide 0). *)
Definition track_agrees (p : Page) : Prop :=
  if fadeEffect (options (this p))
  then carouselInner (this p) = Some transform_unset
  else carouselInner (this p) = Some (translateX (- shown p * 100)) \/
       (carouselInner (this p) = Some transform_unset /\ shown p = 0).

(** An event log made of completed transitions only: each [slideChange] is
    followed at once by the [slideChanged] of its target. *)
Inductive paired : list CustomEvent -> Prop :=
| paired_nil : paired []
| paired_snoc log from to :
    paired log -> paired (log ++ [slideChange from to; slideChanged to]).

(** The event log of a carousel: completed transitions, then the request of
    the transition in flight, if any. *)
Definition log_well_formed (p : Page) : Prop :=
  if isTransitioning (this p)
  then exists log from due cb,
         paired log /\
         dispatched p = log ++ [slideChange from (settles_on cb)] /\
         timeouts p = [(due, cb)]
  else paired (dispatched p).

(** ** Repeated navigation *)

(** [prev()] on a settled carousel, then the 500 ms of the transition and
    its completion callback. *)
Definition prev_settled (p : Page) : option Page :=
  run [Invoke call_prevSlide; Elapse 500; TimeoutFires] p.

(** [k] settled requests in a row. *)
Fixpoint iter_settled (request : Page -> option Page) (k : nat) (p : Page)
  : option Page :=
  match k with
  | O => Some p
  | S k' =>
    match request p with
    | Some p1 => iter_settled request k' p1
    | None => None
    end
  end.

(** * Properties *)

Arguments on_this _ _ /.
Arguments set_vars _ _ /.
Arguments set_now _ _ /.
Arguments set_timeouts _ _ /.
Arguments dispatchEvent _ _ /.
Arguments setTimeout _ _ _ /.
Arguments setInterval _ _ /.
Arguments set_currentSlide _ _ /.
Arguments set_slides _ _ /.
Arguments set_isPlaying _ _ /.
Arguments set_autoplayTimer _ _ /.
Arguments set_isTransitioning _ _ /.
Arguments set_carouselInner _ _ /.
Arguments set_arrowButtons _ _ /.
Arguments set_dots _ _ /.
Arguments set_playPauseBtn _ _ /.
Arguments andThen !_ _ /.
Arguments pauseAutoplay : simpl never.
Arguments startAutoplay : simpl never.
Arguments toggleAutoplay : simpl never.
Arguments updateSlideState : simpl never.
Arguments setSlide : simpl never.
Arguments fadeToSlide : simpl never.
Arguments slideToSlide : simpl never.
Arguments runCallback : simpl never.
Arguments goToSlide : simpl never.
Arguments nextSlide : simpl never.
Arguments prevSlide : simpl never.
Arguments destroy : simpl never.
Arguments handleLooping : simpl never.
Arguments item : simpl never.
Arguments removeActive : simpl never.
Arguments addActive : simpl never.
Arguments dropActive : simpl never.
Arguments slideCount : simpl never.

(** ** Arrays and the boundary policy *)

Lemma item_Some {A} (arr : list A) (i : Z) :
  0 <= i < Z.of_nat (length arr) -> is_Some (item arr i).
Proof.
  intros [H0 H1]. unfold item. rewrite decide_True by done.
  apply lookup_lt_is_Some. lia.
Qed.

Lemma item_None {A} (arr : list A) (i : Z) :
  ~ (0 <= i < Z.of_nat (length arr)) -> item arr i = None.
Proof.
  intros H. unfold item. case_decide; [|done].
  apply lookup_ge_None. lia.
Qed.

Lemma length_removeActive arr : length (removeActive arr) = length arr.
Proof. unfold removeActive. apply length_fmap. Qed.

Lemma length_addActive arr i : length (addActive arr i) = length arr.
Proof. unfold addActive. apply length_insert. Qed.

Lemma length_dropActive arr i : length (dropActive arr i) = length arr.
Proof. unfold dropActive. apply length_insert. Qed.

Lemma handleLooping_range (l : bool) (n i : Z) :
  0 < n -> 0 <= handleLooping l n i < n.
Proof.
  intros Hn. unfold handleLooping.
  destruct (Z.geb_spec i n), (Z.ltb_spec i 0), l; lia.
Qed.

Lemma handleLooping_inside (l : bool) (n i : Z) :
  0 <= i < n -> handleLooping l n i = i.
Proof.
  intros Hi. unfold handleLooping.
  destruct (Z.geb_spec i n), (Z.ltb_spec i 0); lia.
Qed.

Lemma handleLooping_above (l : bool) (n i : Z) :
  n <= i -> handleLooping l n i = if l then 0 else n - 1.
Proof.
  intros Hi. unfold handleLooping. destruct (Z.geb_spec i n); [done | lia].
Qed.

Lemma handleLooping_below (l : bool) (n i : Z) :
  0 <= n -> i < 0 -> handleLooping l n i = if l then n - 1 else 0.
Proof.
  intros Hn Hi. unfold handleLooping.
  destruct (Z.geb_spec i n), (Z.ltb_spec i 0); lia.
Qed.

(** ** The invariant is kept by every method *)

Lemma Inv_frame opts n p v t d :
  Inv opts n p -> Inv opts n (mkPage (this p) v t (timeouts p) d).
Proof. intros []. by constructor. Qed.

Section Methods.
Context (opts : Options) (n : nat).
Implicit Types p : Page.

(** [startAutoplay] does nothing unless autoplay is enabled and there is
    more than one slide; otherwise it arms the interval. *)
Lemma startAutoplay_inert p :
  autoplay (options (this p)) = false \/ slideCount (this p) <= 1 ->
  startAutoplay p = Normal p.
Proof.
  intros H. unfold startAutoplay.
  destruct H as [-> | H]; [done|].
  destruct (Z.leb_spec (slideCount (this p)) 1); [|lia].
  by rewrite orb_true_r.
Qed.

Lemma pauseAutoplay_eq p :
  pauseAutoplay p =
  Normal
    {| this :=
         {| options := options (this p);
            currentSlide := currentSlide (this p);
            slides := slides (this p);
            isPlaying := isPlaying (this p);
            autoplayTimer := None;
            isTransitioning := isTransitioning (this p);
            carouselInner := carouselInner (this p);
            arrowButtons := arrowButtons (this p);
            dots := dots (this p);
            playPauseBtn := (fun _ => fa_play) <$> playPauseBtn (this p) |};
       vars := vars p; now := now p; timeouts := timeouts p;
       dispatched := dispatched p |}.
Proof.
  unfold pauseAutoplay. destruct p as [[] ? ? ? ?]; cbn.
  destruct autoplayTimer0, playPauseBtn0; done.
Qed.

Lemma startAutoplay_eq p :
  autoplay (options (this p)) = true -> 1 < slideCount (this p) ->
  startAutoplay p =
  Normal
    {| this :=
         {| options := options (this p);
            currentSlide := currentSlide (this p);
            slides := slides (this p);
            isPlaying := true;
            autoplayTimer :=
              Some (now p + Z.max 0 (autoplayDelay (options (this p))));
            isTransitioning := isTransitioning (this p);
            carouselInner := carouselInner (this p);
            arrowButtons := arrowButtons (this p);
            dots := dots (this p);
            playPauseBtn := (fun _ => fa_pause) <$> playPauseBtn (this p) |};
       vars := vars p; now := now p; timeouts := timeouts p;
       dispatched := dispatched p |}.
Proof.
  intros Ha Hn. unfold startAutoplay. rewrite Ha.
  destruct (Z.leb_spec (slideCount (this p)) 1); [lia|].
  rewrite pauseAutoplay_eq. cbn.
  destruct (playPauseBtn (this p)); done.
Qed.

Lemma pauseAutoplay_Inv p :
  Inv opts n p -> exists p', pauseAutoplay p = Normal p' /\ Inv opts n p'.
Proof.
  intros [Ho Hs Hc Hi Hd Hctl Ht Hp]. rewrite pauseAutoplay_eq.
  eexists. split; [reflexivity|]. constructor; cbn; eauto.
  - intros Hn. destruct (Hctl Hn) as (-> & -> & ->). done.
  - by intros [? [=]].
Qed.

Lemma startAutoplay_Inv p :
  Inv opts n p -> exists p', startAutoplay p = Normal p' /\ Inv opts n p'.
Proof.
  intros HI.
  destruct (autoplay (options (this p))) eqn:Ha; cycle 1.
  { exists p. split; [|done]. apply startAutoplay_inert. by left. }
  destruct (decide (slideCount (this p) <= 1)) as [Hle|Hgt].
  { exists p. split; [|done]. apply startAutoplay_inert. by right. }
  rewrite startAutoplay_eq by (done || lia).
  eexists. split; [reflexivity|].
  destruct HI as [Ho Hs Hc Hi Hd Hctl Ht Hp].
  unfold slideCount in Hgt. rewrite Hs in Hgt.
  constructor; cbn; eauto.
  - intros Hn. lia.
  - intros _. split; [congruence | lia].
Qed.

Lemma toggleAutoplay_Inv p :
  Inv opts n p -> exists p', toggleAutoplay p = Normal p' /\ Inv opts n p'.
Proof.
  intros HI. unfold toggleAutoplay.
  destruct (isPlaying (this p)).
  - apply pauseAutoplay_Inv. destruct HI. by constructor.
  - apply startAutoplay_Inv. destruct HI. by constructor.
Qed.

(** Settled-state application on an index inside the slide array. *)
Lemma updateSlideState_Normal index p :
  0 <= index < slideCount (this p) ->
  (forall ds, dots (this p) = Some ds ->
              length ds = length (slides (this p))) ->
  updateSlideState index p =
  Normal
    {| this :=
         {| options := options (this p);
            currentSlide := index;
            slides := addActive (removeActive (slides (this p))) index;
            isPlaying := isPlaying (this p);
            autoplayTimer := autoplayTimer (this p);
            isTransitioning := false;
            carouselInner := carouselInner (this p);
            arrowButtons := arrowButtons (this p);
            dots := (fun ds => addActive (removeActive ds) index)
                      <$> dots (this p);
            playPauseBtn := playPauseBtn (this p) |};
       vars := vars p; now := now p; timeouts := timeouts p;
       dispatched := dispatched p ++ [slideChanged index] |}.
Proof.
  unfold slideCount. intros Hi Hd. unfold updateSlideState. cbn.
  destruct (item_Some (removeActive (slides (this p))) index) as [b ->].
  { by rewrite length_removeActive. }
  destruct (dots (this p)) as [ds|] eqn:E; cbn; [|done].
  destruct (item_Some ds index) as [b' ->]; [|done].
  rewrite (Hd ds eq_refl). done.
Qed.

Lemma setSlide_Normal index p :
  0 <= index < slideCount (this p) ->
  (forall ds, dots (this p) = Some ds ->
              length ds = length (slides (this p))) ->
  is_Some (carouselInner (this p)) ->
  setSlide index p =
  Normal
    {| this :=
         {| options := options (this p);
            currentSlide := index;
            slides := addActive (removeActive (slides (this p))) index;
            isPlaying := isPlaying (this p);
            autoplayTimer := autoplayTimer (this p);
            isTransitioning := false;
            carouselInner :=
              if fadeEffect (options (this p)) then carouselInner (this p)
              else Some (translateX (- index * 100));
            arrowButtons := arrowButtons (this p);
            dots := (fun ds => addActive (removeActive ds) index)
                      <$> dots (this p);
            playPauseBtn := playPauseBtn (this p) |};
       vars := vars p; now := now p; timeouts := timeouts p;
       dispatched := dispatched p |}.
Proof.
  unfold slideCount. intros Hi Hd [tr Htr]. unfold setSlide. cbn.
  destruct (item_Some (removeActive (slides (this p))) index) as [b ->].
  { by rewrite length_removeActive. }
  destruct (dots (this p)) as [ds|] eqn:E; cbn.
  - destruct (item_Some ds index) as [b' ->].
    { by rewrite (Hd ds eq_refl). }
    cbn. destruct (fadeEffect (options (this p))); cbn; [done|].
    by rewrite Htr.
  - destruct (fadeEffect (options (this p))); cbn; [done|].
    by rewrite Htr.
Qed.

Lemma slideToSlide_Normal index p :
  is_Some (carouselInner (this p)) ->
  slideToSlide index p =
  Normal
    {| this := set_carouselInner (Some (translateX (- index * 100))) (this p);
       vars := vars p; now := now p;
       timeouts := timeouts p ++ [(now p + 500, slideCleanup index)];
       dispatched := dispatched p |}.
Proof. intros [tr Htr]. unfold slideToSlide. by rewrite Htr. Qed.

Lemma fadeToSlide_Normal index p :
  0 <= index < slideCount (this p) ->
  0 <= currentSlide (this p) < slideCount (this p) ->
  fadeToSlide index p =
  Normal
    {| this := set_slides (addActive (slides (this p)) index) (this p);
       vars := vars p; now := now p;
       timeouts := timeouts p
                   ++ [(now p + 500, fadeCleanup (currentSlide (this p)) index)];
       dispatched := dispatched p |}.
Proof.
  unfold slideCount. intros Hi Hc. unfold fadeToSlide.
  destruct (item_Some (slides (this p)) index) as [b ->]; [done|]. cbn.
  destruct (item_Some (addActive (slides (this p)) index)
              (currentSlide (this p))) as [b' ->]; [|done].
  by rewrite length_addActive.
Qed.

(** The guard of [goToSlide]. *)
Lemma goToSlide_dropped index animate p :
  isTransitioning (this p) = true \/ index = currentSlide (this p) ->
  goToSlide index animate p = Normal p.
Proof.
  intros H. unfold goToSlide. destruct H as [-> | ->]; [done|].
  rewrite bool_decide_eq_true_2 by done. by rewrite orb_true_r.
Qed.

(** A request that passes the guard starts a transition towards the
    resolved index: the request event is dispatched at once and the
    completion callback is scheduled 500 ms ahead. *)
Lemma goToSlide_starts index p :
  Inv opts n p ->
  isTransitioning (this p) = false ->
  index <> currentSlide (this p) ->
  exists p' cb,
    goToSlide index true p = Normal p' /\
    Inv opts n p' /\
    isTransitioning (this p') = true /\
    currentSlide (this p') = currentSlide (this p) /\
    timeouts p' = [(now p + 500, cb)] /\
    settles_on cb = handleLooping (loop opts) (Z.of_nat n) index /\
    dispatched p' =
      dispatched p
      ++ [slideChange (currentSlide (this p))
            (handleLooping (loop opts) (Z.of_nat n) index)] /\
    now p' = now p /\ vars p' = vars p /\
    isPlaying (this p') = isPlaying (this p) /\
    autoplayTimer (this p') = autoplayTimer (this p).
Proof.
  intros [Ho Hs Hc Hi Hd Hctl Ht Hp] Htr Hne. rewrite Htr in Hp.
  assert (Hn : 0 < Z.of_nat n) by lia.
  pose proof (handleLooping_range (loop opts) (Z.of_nat n) index Hn) as Hr.
  unfold goToSlide. rewrite Htr, bool_decide_eq_false_2 by done. cbn.
  unfold slideCount. rewrite Hs, Ho.
  set (r := handleLooping (loop opts) (Z.of_nat n) index) in *.
  destruct (fadeEffect opts) eqn:Hf.
  - rewrite fadeToSlide_Normal; cbn; unfold slideCount; cbn;
      rewrite ?Hs; [|done..].
    eexists _, _. split; [reflexivity|]. split.
    { constructor; cbn; rewrite ?length_addActive; eauto.
      rewrite Hp. eexists _, _. split; [reflexivity|]. cbn. lia. }
    cbn. rewrite Hp. done.
  - rewrite slideToSlide_Normal by done. cbn.
    eexists _, _. split; [reflexivity|]. split.
    { constructor; cbn; eauto.
      rewrite Hp. eexists _, _. split; [reflexivity|]. cbn. lia. }
    cbn. rewrite Hp. done.
Qed.

(** A non-animated request that passes the guard places the slide at
    once, with no event. *)
Lemma goToSlide_places index p :
  Inv opts n p ->
  isTransitioning (this p) = false ->
  index <> currentSlide (this p) ->
  exists p',
    goToSlide index false p = Normal p' /\
    Inv opts n p' /\
    isTransitioning (this p') = false /\
    currentSlide (this p') = handleLooping (loop opts) (Z.of_nat n) index /\
    timeouts p' = timeouts p /\ dispatched p' = dispatched p.
Proof.
  intros [Ho Hs Hc Hi Hd Hctl Ht Hp] Htr Hne. rewrite Htr in Hp.
  assert (Hn : 0 < Z.of_nat n) by lia.
  pose proof (handleLooping_range (loop opts) (Z.of_nat n) index Hn) as Hr.
  unfold goToSlide. rewrite Htr, bool_decide_eq_false_2 by done. cbn.
  unfold slideCount. rewrite Hs, Ho.
  set (r := handleLooping (loop opts) (Z.of_nat n) index) in *.
  rewrite setSlide_Normal; unfold slideCount; rewrite ?Hs; try done.
  eexists. split; [reflexivity|]. split; [|done].
  constructor; cbn; rewrite ?length_addActive, ?length_removeActive;
    eauto.
  - destruct (fadeEffect (options (this p))); [done | eauto].
  - intros ds. destruct (dots (this p)) as [ds'|] eqn:E; [|done].
    intros [= <-]. rewrite length_addActive, length_removeActive. eauto.
  - intros Hn1. destruct (Hctl Hn1) as (-> & -> & ->). done.
Qed.

Lemma goToSlide_Inv index animate p :
  Inv opts n p ->
  exists p', goToSlide index animate p = Normal p' /\ Inv opts n p'.
Proof.
  intros HI.
  destruct (isTransitioning (this p)) eqn:Htr.
  { exists p. split; [|done]. apply goToSlide_dropped. by left. }
  destruct (decide (index = currentSlide (this p))) as [He|Hne].
  { exists p. split; [|done]. apply goToSlide_dropped. by right. }
  destruct animate.
  - destruct (goToSlide_starts index p HI Htr Hne) as (p' & cb & ? & ? & _).
    eauto.
  - destruct (goToSlide_places index p HI Htr Hne) as (p' & ? & ? & _).
    eauto.
Qed.

Lemma nextSlide_Inv p :
  Inv opts n p -> exists p', nextSlide p = Normal p' /\ Inv opts n p'.
Proof. apply goToSlide_Inv. Qed.

Lemma prevSlide_Inv p :
  Inv opts n p -> exists p', prevSlide p = Normal p' /\ Inv opts n p'.
Proof. apply goToSlide_Inv. Qed.

Lemma destroy_Inv p :
  Inv opts n p -> exists p', destroy p = Normal p' /\ Inv opts n p'.
Proof.
  intros HI. unfold destroy.
  destruct (pauseAutoplay_Inv p HI) as (p1 & -> & [Ho Hs Hc [tr Hi] Hd Hctl Ht Hp]).
  cbn. rewrite Hi. eexists. split; [reflexivity|].
  constructor; cbn; rewrite ?length_removeActive; eauto.
Qed.

Lemma removeActive_dropActive arr i :
  removeActive (dropActive arr i) = removeActive arr.
Proof.
  unfold removeActive, dropActive. apply list_eq. intros k.
  rewrite !list_lookup_fmap.
  destruct (decide (k = Z.to_nat i)) as [->|Hk].
  - destruct (arr !! Z.to_nat i) eqn:E.
    + rewrite list_lookup_insert_eq; [done|]. by eapply lookup_lt_Some.
    + rewrite list_insert_ge; [by rewrite E|]. by apply lookup_ge_None.
  - by rewrite list_lookup_insert_ne.
Qed.

(** The completion callback of the transition in flight: when it runs it
    applies the settled state and dispatches the one [slideChanged] event. *)
Lemma TimeoutFires_settles p due cb :
  Inv opts n p -> timeouts p = [(due, cb)] -> due <= now p ->
  exists p',
    step TimeoutFires p = Some p' /\
    Inv opts n p' /\
    isTransitioning (this p') = false /\
    currentSlide (this p') = settles_on cb /\
    slides (this p') = addActive (removeActive (slides (this p))) (settles_on cb) /\
    timeouts p' = [] /\
    dispatched p' = dispatched p ++ [slideChanged (settles_on cb)] /\
    now p' = now p /\ vars p' = vars p /\
    isPlaying (this p') = isPlaying (this p) /\
    autoplayTimer (this p') = autoplayTimer (this p).
Proof.
  intros [Ho Hs Hc Hi Hd Hctl Ht Hp] Hto Hdue.
  destruct (isTransitioning (this p)) eqn:Htr; [|congruence].
  destruct Hp as (due' & cb' & Hp & Hok).
  assert (cb' = cb) as -> by congruence. clear Hp.
  cbn. rewrite Hto, decide_True by done.
  assert (Hdots : forall ds, dots (this p) = Some ds ->
                             length ds = length (slides (this p))).
  { intros ds Hds. rewrite Hs. eauto. }
  assert (Hinv : forall c' d',
    options c' = opts -> slides c' = addActive (removeActive (slides (this p))) (settles_on cb) ->
    currentSlide c' = settles_on cb -> carouselInner c' = carouselInner (this p) ->
    dots c' = (fun ds => addActive (removeActive ds) (settles_on cb)) <$> dots (this p) ->
    arrowButtons c' = arrowButtons (this p) ->
    playPauseBtn c' = playPauseBtn (this p) ->
    autoplayTimer c' = autoplayTimer (this p) ->
    isTransitioning c' = false ->
    0 <= settles_on cb < Z.of_nat n ->
    Inv opts n (mkPage c' (vars p) (now p) [] d')).
  { intros c' d' E1 E2 E3 E4 E5 E6 E7 E8 E9 Hr.
    constructor; cbn; rewrite ?E1, ?E2, ?E3, ?E4, ?E5, ?E6, ?E7, ?E8, ?E9;
      rewrite ?length_addActive, ?length_removeActive; eauto.
    - intros ds. destruct (dots (this p)) as [ds'|] eqn:E; [|done].
      intros [= <-]. rewrite length_addActive, length_removeActive. eauto.
    - intros Hn1. destruct (Hctl Hn1) as (-> & -> & ->). done. }
  destruct cb as [outgoing incoming | index]; cbn in Hok |- *;
    unfold runCallback; cbn.
  - rewrite updateSlideState_Normal; cbn; unfold slideCount; cbn;
      rewrite ?length_dropActive, ?Hs; [|lia|done].
    rewrite removeActive_dropActive. cbn.
    eexists. split; [reflexivity|]. split; [apply Hinv; cbn; try done; lia|].
    done.
  - rewrite updateSlideState_Normal; cbn; unfold slideCount; cbn;
      rewrite ?Hs; [|lia|done].
    eexists. split; [reflexivity|]. split; [apply Hinv; cbn; try done; lia|].
    done.
Qed.

Lemma Inv_outcome (c : Completion) :
  (exists p', c = Normal p' /\ Inv opts n p') -> Inv opts n (outcome c).
Proof. by intros (p' & -> & H). Qed.

Lemma Inv_set_vars v p : Inv opts n p -> Inv opts n (set_vars v p).
Proof. apply Inv_frame. Qed.

Lemma andThen_Inv (c : Completion) (k : Page -> Completion) :
  (exists p1, c = Normal p1 /\ Inv opts n p1) ->
  (forall p1, Inv opts n p1 -> exists p', k p1 = Normal p' /\ Inv opts n p') ->
  exists p', (c >>- k) = Normal p' /\ Inv opts n p'.
Proof. intros (p1 & -> & H1) Hk. cbn. eauto. Qed.

Lemma handleMouseLeave_Inv p :
  Inv opts n p -> exists p', handleMouseLeave p = Normal p' /\ Inv opts n p'.
Proof.
  intros HI. unfold handleMouseLeave.
  destruct (isPlaying (this p)); eauto using startAutoplay_Inv.
Qed.

Lemma handleTouchEnd_Inv p :
  Inv opts n p -> exists p', handleTouchEnd p = Normal p' /\ Inv opts n p'.
Proof.
  intros HI. unfold handleTouchEnd.
  destruct (negb (isDragging (vars p))); [eauto|].
  apply andThen_Inv.
  - repeat case_match;
      eauto using nextSlide_Inv, prevSlide_Inv, Inv_set_vars.
  - intros p1 H1. destruct (isPlaying (this p1));
      eauto using startAutoplay_Inv.
Qed.

Lemma handleMouseUp_Inv p :
  Inv opts n p -> exists p', handleMouseUp p = Normal p' /\ Inv opts n p'.
Proof.
  intros HI. unfold handleMouseUp.
  repeat case_match; eauto using nextSlide_Inv, prevSlide_Inv, Inv_set_vars.
Qed.

Lemma listen_Inv e p : Inv opts n p -> Inv opts n (listen e p).
Proof.
  intros HI.
  destruct e; cbn -[handleTouchEnd handleMouseLeave handleMouseUp];
    repeat case_match; try done;
    try (apply Inv_set_vars);
    try (apply Inv_outcome);
    unfold handleKeyDown, handleMouseEnter,
      handleVisibilityChange, handleTouchStart, handleTouchMove,
      handleMouseDown, handleMouseMove, handleMouseLeaveSwipe;
    repeat case_match;
    eauto using pauseAutoplay_Inv, startAutoplay_Inv, toggleAutoplay_Inv,
      goToSlide_Inv, nextSlide_Inv, prevSlide_Inv, Inv_set_vars,
      handleMouseLeave_Inv, handleTouchEnd_Inv, handleMouseUp_Inv.
Qed.

Lemma invoke_Inv c p :
  Inv opts n p -> exists p', invoke c p = Normal p' /\ Inv opts n p'.
Proof.
  intros HI. destruct c; cbn;
    eauto using pauseAutoplay_Inv, startAutoplay_Inv, toggleAutoplay_Inv,
      goToSlide_Inv, nextSlide_Inv, prevSlide_Inv, destroy_Inv.
Qed.

Lemma step_Inv t p p' :
  Inv opts n p -> step t p = Some p' -> Inv opts n p'.
Proof.
  intros HI Hstep. destruct t; cbn in Hstep.
  - injection Hstep as <-. by apply Inv_outcome, invoke_Inv.
  - injection Hstep as <-. by apply listen_Inv.
  - destruct (timeouts p) as [|[due cb] rest] eqn:Hto; [done|].
    case_decide; [|done].
    assert (rest = []) as ->.
    { destruct HI. destruct (isTransitioning (this p)); [|congruence].
      destruct inv_pending0 as (? & ? & ? & _). congruence. }
    destruct (TimeoutFires_settles p due cb HI Hto ltac:(done))
      as (p1 & Hs & HI1 & _).
    cbn in Hs. rewrite Hto, decide_True in Hs by done. congruence.
  - destruct (autoplayTimer (this p)) as [due|] eqn:Ht; [|done].
    case_decide; [|done]. injection Hstep as <-.
    apply Inv_outcome, nextSlide_Inv.
    destruct HI. constructor; cbn; eauto.
  - case_decide; [|done]. injection Hstep as <-. by apply Inv_frame.
Qed.
End Methods.

(** ** Construction *)

Lemma construct_eq opts children t0 :
  construct opts children t0 = Normal (constructed opts children t0).
Proof.
  assert (Hgo : forall q, currentSlide (this q) = 0 ->
                          goToSlide 0 false q = Normal q).
  { intros q Hq. apply goToSlide_dropped. by right. }
  unfold construct, constructed, init, setupCarousel. cbn.
  unfold createControls, slideCount.
  destruct (Z.leb_spec (Z.of_nat (length children)) 1) as [Hle|Hgt].
  - assert (Hk : (1 <? Z.of_nat (length children)) = false) by (apply Z.ltb_ge; lia).
    rewrite Hk, !andb_false_r. cbn.
    assert (Hle' : (Z.of_nat (length children) <=? 1) = true) by (by apply Z.leb_le).
    case_decide as Hlen; cbn; rewrite Hle'; cbn.
    + destruct children; [|done]. 
      destruct (autoplay opts) eqn:Ha; cbn; rewrite ?Ha; cbn.
      * rewrite startAutoplay_inert; cbn; [|right; unfold slideCount; cbn; lia].
        by rewrite Hgo.
      * by rewrite Hgo.
    + destruct children; [done|].
      destruct (autoplay opts) eqn:Ha; cbn; rewrite ?Ha; cbn.
      * rewrite startAutoplay_inert; cbn; [|right; unfold slideCount; cbn [this slides]; lia].
        by rewrite Hgo.
      * by rewrite Hgo.
  - assert (Hk : (1 <? Z.of_nat (length children)) = true) by (by apply Z.ltb_lt).
    rewrite Hk, !andb_true_r. cbn.
    assert (Hle' : (Z.of_nat (length children) <=? 1) = false) by (by apply Z.leb_gt).
    case_decide as Hlen; [lia|]. cbn. rewrite Hle'.
    destruct children as [|c l]; [done|].
    unfold createArrows, createDots, createPlayPauseButton.
    cbn.
    destruct (showArrows opts); cbn;
      destruct (showDots opts); cbn;
      destruct (autoplay opts) eqn:Ha; cbn; rewrite ?Ha; cbn;
      rewrite ?startAutoplay_eq by (try done; unfold slideCount; cbn; lia);
      cbn; by rewrite Hgo.
Qed.

Lemma constructed_Inv opts children t0 :
  children <> [] ->
  Inv opts (length children) (constructed opts children t0).
Proof.
  intros Hne. destruct children as [|c l]; [done|].
  unfold constructed. constructor; cbn [this timeouts options slides
    currentSlide carouselInner dots arrowButtons playPauseBtn autoplayTimer
    isTransitioning]; try done.
  - intros ds. case_match; [|done]. intros [= <-]. apply length_removeActive.
  - intros Hn. assert (Hk : (1 <? Z.of_nat (length (c :: l))) = false)
      by (apply Z.ltb_ge; lia).
    by rewrite Hk.
  - destruct (autoplay opts), (1 <? Z.of_nat (length (c :: l))) eqn:E; cbn;
      intros [? [=]]. apply Z.ltb_lt in E. cbn [length] in *.
    split; [done | lia].
Qed.

Lemma reachable_Inv opts children p :
  children <> [] -> reachable opts children p ->
  Inv opts (length children) p.
Proof.
  intros Hne Hr. induction Hr as [t0 p Hc | t p p' _ IH Hstep].
  - rewrite construct_eq in Hc. injection Hc as <-. by apply constructed_Inv.
  - by eapply step_Inv.
Qed.

Lemma reachable_run opts children ts p p' :
  reachable opts children p -> run ts p = Some p' -> reachable opts children p'.
Proof.
  revert p. induction ts as [|t ts IH]; intros p Hr Hrun; cbn in Hrun.
  - by injection Hrun as <-.
  - destruct (step t p) as [p1|] eqn:Hs; [|done].
    eapply IH; [|done]. by eapply reach_step.
Qed.

Lemma reachable_constructed opts children t0 :
  reachable opts children (constructed opts children t0).
Proof. eapply reach_construct, construct_eq. Qed.

(** ** Serialization of transitions *)

Lemma pauseAutoplay_nav p : nav_state (outcome (pauseAutoplay p)) = nav_state p.
Proof. by rewrite pauseAutoplay_eq. Qed.

Lemma startAutoplay_nav p : nav_state (outcome (startAutoplay p)) = nav_state p.
Proof.
  destruct (autoplay (options (this p))) eqn:Ha; cycle 1.
  { rewrite startAutoplay_inert; [done | by left]. }
  destruct (decide (slideCount (this p) <= 1)).
  { rewrite startAutoplay_inert; [done | by right]. }
  rewrite startAutoplay_eq; [done | done | lia].
Qed.

Lemma toggleAutoplay_nav p : nav_state (outcome (toggleAutoplay p)) = nav_state p.
Proof.
  unfold toggleAutoplay. destruct (isPlaying (this p)).
  - by rewrite pauseAutoplay_nav.
  - by rewrite startAutoplay_nav.
Qed.

Lemma destroy_nav p : nav_state (outcome (destroy p)) = nav_state p.
Proof.
  unfold destroy. rewrite pauseAutoplay_eq. cbn. by case_match.
Qed.

Lemma goToSlide_in_flight index animate p :
  isTransitioning (this p) = true -> goToSlide index animate p = Normal p.
Proof. intros H. apply goToSlide_dropped. by left. Qed.

Lemma invoke_in_flight c p :
  isTransitioning (this p) = true ->
  nav_state (outcome (invoke c p)) = nav_state p.
Proof.
  intros H. destruct c; cbn;
    rewrite ?pauseAutoplay_nav, ?startAutoplay_nav, ?toggleAutoplay_nav,
      ?destroy_nav; try done; unfold nextSlide, prevSlide;
    by rewrite goToSlide_in_flight.
Qed.

Lemma handleTouchEnd_in_flight p :
  isTransitioning (this p) = true ->
  nav_state (outcome (handleTouchEnd p)) = nav_state p.
Proof.
  intros H. unfold handleTouchEnd.
  destruct (negb (isDragging (vars p))); [done|].
  set (p1 := set_vars _ p).
  assert (H1 : isTransitioning (this p1) = true) by done.
  unfold nextSlide, prevSlide. rewrite !goToSlide_in_flight by done.
  assert (Hp1 : forall (b1 b2 : bool),
    (if b1 then if b2 then Normal p1 else Normal p1 else Normal p1) = Normal p1).
  { by intros [] []. }
  rewrite Hp1. cbn [andThen].
  destruct (isPlaying (this p1)); [by rewrite startAutoplay_nav | done].
Qed.

Lemma handleMouseUp_in_flight p :
  isTransitioning (this p) = true ->
  nav_state (outcome (handleMouseUp p)) = nav_state p.
Proof.
  intros H. unfold handleMouseUp.
  destruct (negb (isMouseDown (vars p))); [done|].
  set (p1 := set_vars _ p).
  assert (H1 : isTransitioning (this p1) = true) by done.
  unfold nextSlide, prevSlide. rewrite !goToSlide_in_flight by done.
  by repeat case_match.
Qed.

Lemma handleMouseLeave_nav p :
  nav_state (outcome (handleMouseLeave p)) = nav_state p.
Proof.
  unfold handleMouseLeave.
  destruct (isPlaying (this p)); [by rewrite startAutoplay_nav | done].
Qed.

Lemma listen_in_flight e p :
  isTransitioning (this p) = true ->
  nav_state (listen e p) = nav_state p.
Proof.
  intros H.
  destruct e; cbn -[handleTouchEnd handleMouseUp handleMouseLeave];
    repeat case_match; try done;
    rewrite ?handleTouchEnd_in_flight, ?handleMouseUp_in_flight by done;
    try done;
    try (etransitivity; [|apply handleMouseLeave_nav]; done);
    try apply handleMouseLeave_nav;
    unfold handleKeyDown, handleMouseEnter,
      handleVisibilityChange, handleTouchStart, handleTouchMove,
      handleMouseDown, handleMouseMove,
      handleMouseLeaveSwipe, nextSlide, prevSlide;
    repeat case_match; try done;
    rewrite ?goToSlide_in_flight by done; cbn;
    rewrite ?pauseAutoplay_nav, ?startAutoplay_nav, ?toggleAutoplay_nav;
    try done.
  all: try (rewrite pauseAutoplay_eq; done).
Qed.

(** While a transition is in flight, no task other than its completion
    callback changes the navigation state: requests are dropped, nothing is
    dispatched and nothing is scheduled. *)
Lemma step_in_flight t p p' :
  t <> TimeoutFires ->
  isTransitioning (this p) = true ->
  step t p = Some p' ->
  nav_state p' = nav_state p.
Proof.
  intros Ht H Hs. destruct t; cbn in Hs; try done.
  - injection Hs as <-. by apply invoke_in_flight.
  - injection Hs as <-. by apply listen_in_flight.
  - destruct (autoplayTimer (this p)); [|done]. case_decide; [|done].
    injection Hs as <-. unfold nextSlide.
    by rewrite goToSlide_in_flight.
  - case_decide; [|done]. by injection Hs as <-.
Qed.

Lemma run_in_flight ts p p' :
  TimeoutFires ∉ ts ->
  isTransitioning (this p) = true ->
  run ts p = Some p' ->
  nav_state p' = nav_state p.
Proof.
  revert p. induction ts as [|t ts IH]; intros p Hts H Hrun; cbn in Hrun.
  - by injection Hrun as <-.
  - destruct (step t p) as [p1|] eqn:Hs; [|done].
    apply not_elem_of_cons in Hts as [Ht Hts].
    assert (H1 : nav_state p1 = nav_state p) by (by eapply step_in_flight).
    rewrite <- H1. apply IH; [done| |done].
    unfold nav_state in H1. congruence.
Qed.

(** * The carousel's contract *)

(** ** Navigation *)

(** C4 (idempotence of goTo on the current index): in every carousel state,
    [goToSlide] called with the current index, animated or not, completes
    normally and returns the very same state: no transition begins,
    [isTransitioning] and [currentSlide] keep their values, nothing is
    scheduled, and neither [slideChange] nor [slideChanged] is dispatched. *)
Theorem C4_goTo_current_is_noop (p : Page) (animate : bool) :
  goToSlide (currentSlide (this p)) animate p = Normal p.
Proof. apply goToSlide_dropped. by right. Qed.

(** C2 (boundary policy of goTo): in a carousel with at least one slide, a
    target at or past [slideCount] resolves to 0 with [loop] and to
    [slideCount - 1] without; a negative target resolves to [slideCount - 1]
    with [loop] and to 0 without; a target in range is used unchanged.  The
    resolved index is the one a request that passes the guard acts on: the
    [to] of the [slideChange] event and the slide the scheduled completion
    settles on when animated, the slide placed when not. *)
Theorem C2_boundary_policy opts children (p : Page) (targetIndex : Z) :
  children <> [] ->
  reachable opts children p ->
  let resolved := handleLooping (loop opts) (slideCount (this p)) targetIndex in
  (slideCount (this p) <= targetIndex ->
   resolved = if loop opts then 0 else slideCount (this p) - 1) /\
  (targetIndex < 0 ->
   resolved = if loop opts then slideCount (this p) - 1 else 0) /\
  (0 <= targetIndex < slideCount (this p) -> resolved = targetIndex) /\
  (isTransitioning (this p) = false ->
   targetIndex <> currentSlide (this p) ->
   (exists p' cb,
      goToSlide targetIndex true p = Normal p' /\
      dispatched p' =
        dispatched p ++ [slideChange (currentSlide (this p)) resolved] /\
      timeouts p' = [(now p + 500, cb)] /\ settles_on cb = resolved) /\
   (exists p',
      goToSlide targetIndex false p = Normal p' /\
      currentSlide (this p') = resolved /\ dispatched p' = dispatched p)).
Proof.
  intros Hne Hr resolved.
  pose proof (reachable_Inv opts children p Hne Hr) as HI.
  assert (Hn : slideCount (this p) = Z.of_nat (length children)).
  { unfold slideCount. by rewrite (inv_slides _ _ _ HI). }
  subst resolved. rewrite Hn.
  split; [apply handleLooping_above|].
  split; [apply handleLooping_below; lia|].
  split; [apply handleLooping_inside|].
  intros Htr Hidx. split.
  - destruct (goToSlide_starts opts _ targetIndex p HI Htr Hidx)
      as (p' & cb & Hgo & _ & _ & _ & Hto & Hcb & Hd & _).
    eauto 10.
  - destruct (goToSlide_places opts _ targetIndex p HI Htr Hidx)
      as (p' & Hgo & _ & _ & Hc & _ & Hd).
    eauto.
Qed.

(** C9 (index-range invariant): in every state a carousel with at least one
    slide can reach -- from construction through any sequence of method
    calls, user input, autoplay ticks, completion callbacks and passing
    time -- [0 <= currentSlide < slideCount]. *)
Theorem C9_index_in_range opts children (p : Page) :
  children <> [] ->
  reachable opts children p ->
  0 <= currentSlide (this p) < slideCount (this p).
Proof.
  intros Hne Hr.
  destruct (reachable_Inv opts children p Hne Hr).
  unfold slideCount. by rewrite inv_slides0.
Qed.

(** ** Transitions run to completion, one at a time *)

Lemma completion_early (p1 : Page) due cb rest d :
  timeouts p1 = (due, cb) :: rest -> 0 <= d -> now p1 + d < due ->
  run [Elapse d; TimeoutFires] p1 = None.
Proof.
  intros Hto Hd Hlt. unfold run, step. rewrite decide_True by done.
  cbn [set_now timeouts now]. rewrite Hto. by rewrite decide_False by lia.
Qed.

Lemma completion_due opts n (p1 : Page) due cb d :
  Inv opts n p1 -> timeouts p1 = [(due, cb)] -> 0 <= d -> due <= now p1 + d ->
  exists p2,
    run [Elapse d; TimeoutFires] p1 = Some p2 /\
    Inv opts n p2 /\
    isTransitioning (this p2) = false /\
    currentSlide (this p2) = settles_on cb /\
    slides (this p2) = addActive (removeActive (slides (this p1))) (settles_on cb) /\
    timeouts p2 = [] /\
    dispatched p2 = dispatched p1 ++ [slideChanged (settles_on cb)] /\
    now p2 = now p1 + d.
Proof.
  intros HI Hto Hd Hdue.
  destruct (TimeoutFires_settles opts n (set_now (now p1 + d) p1) due cb)
    as (p2 & Hs & HI2 & Htr & Hc & Hsl & Hto2 & Hdis & Hnow & _);
    [by apply Inv_frame | done | done |].
  exists p2. split.
  { unfold run. unfold step at 1. rewrite decide_True by done.
    by rewrite Hs. }
  done.
Qed.

(** A request that passes the guard, followed by the transition's 500 ms
    and its completion callback. *)
Lemma transition_completes opts n (p : Page) index :
  Inv opts n p ->
  isTransitioning (this p) = false ->
  index <> currentSlide (this p) ->
  let r := handleLooping (loop opts) (Z.of_nat n) index in
  exists p2,
    run [Invoke (call_goToSlide index true); Elapse 500; TimeoutFires] p
      = Some p2 /\
    Inv opts n p2 /\
    isTransitioning (this p2) = false /\
    currentSlide (this p2) = r /\
    dispatched p2 =
      dispatched p ++ [slideChange (currentSlide (this p)) r; slideChanged r].
Proof.
  intros HI Htr Hne r.
  destruct (goToSlide_starts opts n index p HI Htr Hne)
    as (p1 & cb & Hgo & HI1 & _ & _ & Hto & Hcb & Hd & Hnow & _).
  destruct (completion_due opts n p1 _ cb 500 HI1 Hto ltac:(done) ltac:(lia))
    as (p2 & Hrun & HI2 & Htr2 & Hc2 & _ & _ & Hd2 & _).
  exists p2. split.
  { change (run (?t :: ?ts) p) with (step t p ≫= run ts).
    cbn [step invoke]. rewrite Hgo. cbn [outcome mbind option_bind]. done. }
  rewrite Hd2, Hd, Hc2, Hcb, <- app_assoc. done.
Qed.

Lemma next_settled_spec opts n (p : Page) :
  Inv opts n p ->
  isTransitioning (this p) = false ->
  exists p2,
    next_settled p = Some p2 /\
    Inv opts n p2 /\
    isTransitioning (this p2) = false /\
    currentSlide (this p2) =
      handleLooping (loop opts) (Z.of_nat n) (currentSlide (this p) + 1).
Proof.
  intros HI Htr.
  destruct (transition_completes opts n p (currentSlide (this p) + 1) HI Htr
              ltac:(lia)) as (p2 & Hrun & HI2 & Htr2 & Hc & _).
  exists p2. split; [|done]. exact Hrun.
Qed.

Lemma tour_advance opts n k : forall (p : Page) (c : nat),
  Inv opts n p ->
  isTransitioning (this p) = false ->
  currentSlide (this p) = Z.of_nat c ->
  (c + k < n)%nat ->
  exists q,
    tour k p = Some (Z.of_nat <$> seq (S c) k, q) /\
    Inv opts n q /\
    isTransitioning (this q) = false /\
    currentSlide (this q) = Z.of_nat (c + k).
Proof.
  induction k as [|k IH]; intros p c HI Htr Hc Hlt.
  - exists p. cbn. rewrite Nat.add_0_r. done.
  - destruct (next_settled_spec opts n p HI Htr) as (p1 & Hn & HI1 & Htr1 & Hc1).
    rewrite Hc, handleLooping_inside in Hc1 by lia.
    destruct (IH p1 (S c) HI1 Htr1 ltac:(lia) ltac:(lia))
      as (q & Ht & HIq & Htrq & Hcq).
    exists q. cbn [tour]. rewrite Hn, Ht, Hc1.
    split; [|split; [done|split; [done|]]].
    + cbn. do 3 f_equal. lia.
    + rewrite Hcq. lia.
Qed.

Lemma tour_app a b (p : Page) :
  tour (a + b) p =
  match tour a p with
  | Some (l, q) =>
    match tour b q with
    | Some (l', q') => Some (l ++ l', q')
    | None => None
    end
  | None => None
  end.
Proof.
  revert p. induction a as [|a IH]; intros p; cbn [tour Nat.add].
  - destruct (tour b p) as [[l' q']|]; done.
  - destruct (next_settled p) as [p1|]; [|done].
    rewrite IH. destruct (tour a p1) as [[l q]|]; [|done].
    destruct (tour b q) as [[l' q']|]; done.
Qed.

(** C3 (loop round-trip): with more than one slide and [loop] enabled,
    starting settled at index 0 and issuing [next()] exactly [slideCount]
    times, each after the previous transition has settled, settles in turn
    on 1, 2, ..., slideCount - 1 and finally 0 again: the carousel is back
    at index 0 and every index of [0, slideCount) was visited exactly
    once. *)
Theorem C3_loop_round_trip opts children (p : Page) :
  (1 < length children)%nat ->
  loop opts = true ->
  reachable opts children p ->
  currentSlide (this p) = 0 ->
  isTransitioning (this p) = false ->
  exists visited q,
    tour (length children) p = Some (visited, q) /\
    currentSlide (this q) = 0 /\
    isTransitioning (this q) = false /\
    visited = (Z.of_nat <$> seq 1 (length children - 1)) ++ [0] /\
    NoDup visited /\
    (forall i, i ∈ visited <-> 0 <= i < slideCount (this p)).
Proof.
  intros Hn Hloop Hr Hc Htr.
  assert (Hne : children <> []) by (destruct children; [cbn in Hn; lia | done]).
  pose proof (reachable_Inv opts children p Hne Hr) as HI.
  set (n := length children) in *.
  destruct (tour_advance opts n (n - 1) p 0%nat HI Htr Hc ltac:(lia))
    as (q1 & Ht1 & HI1 & Htr1 & Hc1).
  destruct (next_settled_spec opts n q1 HI1 Htr1) as (q & Hn2 & HI2 & Htr2 & Hc2).
  rewrite Hc1, Hloop, handleLooping_above in Hc2 by lia.
  exists ((Z.of_nat <$> seq 1 (n - 1)) ++ [0]), q.
  split; [|split; [done|split; [done|split; [done|split]]]].
  - replace n with ((n - 1) + 1)%nat at 1 by lia.
    rewrite tour_app, Ht1. cbn [tour]. by rewrite Hn2, Hc2.
  - apply list.NoDup_app. split; [|split].
    + apply NoDup_fmap_2; [apply _ | apply NoDup_seq].
    + intros x Hx Hx0. apply list_elem_of_singleton in Hx0 as ->.
      apply list_elem_of_fmap in Hx as (k & Hk & Hin).
      apply elem_of_seq in Hin. lia.
    + apply NoDup_singleton.
  - intros i. unfold slideCount. rewrite (inv_slides _ _ _ HI).
    rewrite elem_of_app, list_elem_of_fmap, list_elem_of_singleton. split.
    + intros [(k & -> & Hin) | ->]; [apply elem_of_seq in Hin|]; lia.
    + intros Hi. destruct (decide (i = 0)) as [->|H0]; [by right|].
      left. exists (Z.to_nat i). split; [lia|]. apply elem_of_seq. lia.
Qed.

Lemma goToSlide_serialized opts n (p : Page) (delta : Z) :
  Inv opts n p ->
  isTransitioning (this p) = false ->
  delta <> 0 ->
  serialized_transition
    (fun q => goToSlide (currentSlide (this q) + delta) true q) p
    (handleLooping (loop opts) (Z.of_nat n) (currentSlide (this p) + delta)).
Proof.
  intros HI Htr Hdelta.
  destruct (goToSlide_starts opts n (currentSlide (this p) + delta) p HI Htr
              ltac:(lia))
    as (p1 & cb & Hgo & HI1 & Htr1 & Hc1 & Hto & Hcb & Hd & Hnow & _).
  exists p1, cb.
  split; [done|]. split; [done|]. split; [done|]. split; [done|].
  split; [done|]. split; [done|].
  split; [by apply goToSlide_in_flight|].
  split; [intros ts p' Hts Hrun; by eapply run_in_flight|].
  split.
  - intros d Hd'. eapply completion_early; [done | lia | lia].
  - intros d Hd'.
    destruct (completion_due opts n p1 _ cb d HI1 Hto ltac:(lia) ltac:(lia))
      as (p2 & Hrun & _ & Htr2 & Hc2 & _ & Hto2 & Hd2 & _).
    exists p2. rewrite Hd2, Hd, Hc2, Hcb, <- app_assoc. done.
Qed.

(** C1 (transitions are mutually exclusive and serialized), for the
    requests that move: in a settled carousel with more than one slide, with
    [loop] enabled or the current slide not the last, [next()] issued twice
    with no delay starts exactly one transition; the second call is dropped
    by the [isTransitioning] guard; until the completion callback has run
    no task starts another transition, dispatches or schedules anything; and
    the run ends with exactly one [slideChanged], carrying the successor
    index (the next index, or 0 when wrapping). *)
Theorem C1_double_next_one_transition opts children (p : Page) :
  (1 < length children)%nat ->
  reachable opts children p ->
  isTransitioning (this p) = false ->
  loop opts = true \/ currentSlide (this p) + 1 < slideCount (this p) ->
  let s := currentSlide (this p) in
  let s' := (s + 1) `mod` slideCount (this p) in
  serialized_transition nextSlide p s' /\
  exists p2,
    run [Invoke call_nextSlide; Invoke call_nextSlide; Elapse 500;
         TimeoutFires] p = Some p2 /\
    isTransitioning (this p2) = false /\
    currentSlide (this p2) = s' /\
    dispatched p2 = dispatched p ++ [slideChange s s'; slideChanged s'].
Proof.
  intros Hn Hr Htr Hmove s s'.
  assert (Hne : children <> []) by (destruct children; [cbn in Hn; lia | done]).
  pose proof (reachable_Inv opts children p Hne Hr) as HI.
  assert (Hcount : slideCount (this p) = Z.of_nat (length children)).
  { unfold slideCount. by rewrite (inv_slides _ _ _ HI). }
  pose proof (inv_current _ _ _ HI) as Hc.
  assert (Hs' : handleLooping (loop opts) (Z.of_nat (length children)) (s + 1) = s').
  { subst s s'. rewrite Hcount in *.
    destruct (decide (currentSlide (this p) + 1 < Z.of_nat (length children))).
    - rewrite handleLooping_inside by lia. by rewrite Z.mod_small by lia.
    - destruct Hmove as [Hloop|]; [|lia].
      rewrite handleLooping_above, Hloop by lia.
      replace (currentSlide (this p) + 1) with (Z.of_nat (length children))
        by lia.
      by rewrite Z_mod_same_full. }
  pose proof (goToSlide_serialized opts _ p 1 HI Htr ltac:(done)) as Hser.
  fold s in Hser. rewrite Hs' in Hser.
  split; [exact Hser|].
  destruct Hser as (p1 & cb & Hgo & _ & _ & _ & _ & _ & Hdrop & _ & _ & Hdone).
  destruct (Hdone 500 ltac:(done)) as (p2 & Hrun & Htr2 & Hc2 & _ & Hd2).
  exists p2. split; [|done].
  change (run (?t1 :: ?t2 :: ?ts) p) with (step t1 p ≫= fun q => step t2 q ≫= run ts).
  cbn beta in Hgo, Hdrop. cbn [step invoke]. unfold nextSlide.
  rewrite Hgo. cbn [outcome mbind option_bind].
  rewrite Hdrop. cbn [outcome mbind option_bind]. exact Hrun.
Qed.

(** C10 (self-transition at a clamped boundary): in a settled carousel with
    at least one slide and [loop] disabled, [next()] at the last index is
    not dropped: the target [slideCount] passes the guard, clamps back to
    [slideCount - 1], sets [isTransitioning], dispatches [slideChange] with
    [from = to = slideCount - 1] and, no sooner than 500 ms later, the
    completion callback dispatches [slideChanged]; [currentSlide] stays
    [slideCount - 1] throughout.  The same holds for [prev()] at index 0. *)
Theorem C10_self_transition_at_clamped_boundary opts children (p : Page) :
  children <> [] ->
  reachable opts children p ->
  loop opts = false ->
  isTransitioning (this p) = false ->
  (currentSlide (this p) = slideCount (this p) - 1 ->
   serialized_transition nextSlide p (slideCount (this p) - 1)) /\
  (currentSlide (this p) = 0 ->
   serialized_transition prevSlide p 0).
Proof.
  intros Hne Hr Hloop Htr.
  pose proof (reachable_Inv opts children p Hne Hr) as HI.
  assert (Hcount : slideCount (this p) = Z.of_nat (length children)).
  { unfold slideCount. by rewrite (inv_slides _ _ _ HI). }
  split; intros Hc.
  - pose proof (goToSlide_serialized opts _ p 1 HI Htr ltac:(done)) as Hser.
    rewrite handleLooping_above, Hloop, <- Hcount in Hser by lia.
    exact Hser.
  - pose proof (goToSlide_serialized opts _ p (-1) HI Htr ltac:(done)) as Hser.
    rewrite handleLooping_below, Hloop in Hser by lia.
    exact Hser.
Qed.

(** ** Construction and the degenerate carousels *)

(** C5 (initial placement), as the code has it: on a container with at least
    one panel the constructor completes normally and dispatches no event,
    but the placement call [goToSlide(0, false)] that ends [init] is dropped
    by the guard, because [currentSlide] is already 0: [setSlide] is not
    executed, slide 0 keeps whatever classes the markup gave it, no dot is
    marked and the track offset stays unset -- whereas [setSlide(0)] on the
    constructed carousel would mark slide 0 active. *)
Theorem C5_construction_skips_initial_placement
    opts (b : bool) (rest : list bool) t0 :
  exists p,
    construct opts (b :: rest) t0 = Normal p /\
    goToSlide 0 false p = Normal p /\
    slides (this p) = b :: rest /\
    carouselInner (this p) = Some transform_unset /\
    (forall ds, dots (this p) = Some ds -> ds = removeActive (b :: rest)) /\
    dispatched p = [] /\
    exists q,
      setSlide 0 p = Normal q /\
      slides (this q) = true :: removeActive rest.
Proof.
  exists (constructed opts (b :: rest) t0).
  split; [apply construct_eq|].
  split; [by apply goToSlide_dropped; right|].
  split; [done|]. split; [done|].
  split.
  { cbn [constructed this dots]. intros ds. case_match; [|done]. by intros [= <-]. }
  split; [done|].
  pose proof (constructed_Inv opts (b :: rest) t0 ltac:(done)) as HI.
  rewrite setSlide_Normal.
  - eexists. split; [reflexivity|]. done.
  - unfold slideCount. cbn [constructed this slides length]. lia.
  - intros ds Hds. rewrite (inv_dots _ _ _ HI ds Hds).
    by rewrite (inv_slides _ _ _ HI).
  - by apply (inv_inner _ _ _ HI).
Qed.

(** A carousel with a single slide has no controls and never arms the
    autoplay interval. *)
Lemma single_slide_no_controls_no_timer opts (b : bool) (p : Page) :
  reachable opts [b] p ->
  arrowButtons (this p) = false /\ dots (this p) = None /\
  playPauseBtn (this p) = None /\ autoplayTimer (this p) = None.
Proof.
  intros Hr. pose proof (reachable_Inv opts [b] p ltac:(done) Hr) as HI.
  destruct (inv_controls _ _ _ HI ltac:(done)) as (Ha & Hd & Hb).
  repeat split; try done.
  destruct (autoplayTimer (this p)) eqn:E; [|done].
  destruct (inv_timer _ _ _ HI) as [_ Hn]; [by rewrite E|]. cbn in Hn. lia.
Qed.

(** Construction on a container with no panel completes normally. *)
Lemma zero_slides_construct opts t0 :
  construct opts [] t0 = Normal (constructed opts [] t0) /\
  arrowButtons (this (constructed opts [] t0)) = false /\
  dots (this (constructed opts [] t0)) = None /\
  playPauseBtn (this (constructed opts [] t0)) = None /\
  autoplayTimer (this (constructed opts [] t0)) = None.
Proof.
  split; [apply construct_eq|]. cbn. by rewrite !andb_false_r.
Qed.

(** C6 (zero-slide and single-slide inertness), as the code has it:
    construction on a container with no panel completes normally, with no
    control and no armed interval; a carousel with exactly one slide is
    constructed without arrows, dots, play/pause button or armed interval,
    yet its [next()] and [prev()] are not dropped: each starts a transition
    from slide 0 to slide 0, dispatching [slideChange] with [from = to = 0]
    and, 500 ms later, [slideChanged]. *)
Theorem C6_single_slide_next_prev_transition opts (b : bool) t0 :
  let p0 := constructed opts [] t0 in
  let p := constructed opts [b] t0 in
  (construct opts [] t0 = Normal p0 /\
   arrowButtons (this p0) = false /\ dots (this p0) = None /\
   playPauseBtn (this p0) = None /\ autoplayTimer (this p0) = None) /\
  (construct opts [b] t0 = Normal p /\
   arrowButtons (this p) = false /\ dots (this p) = None /\
   playPauseBtn (this p) = None /\ autoplayTimer (this p) = None) /\
  serialized_transition nextSlide p 0 /\
  serialized_transition prevSlide p 0.
Proof.
  intros p0 p.
  split; [apply zero_slides_construct|].
  split.
  { split; [apply construct_eq|].
    apply (single_slide_no_controls_no_timer opts b p).
    apply reachable_constructed. }
  pose proof (constructed_Inv opts [b] t0 ltac:(done)) as HI.
  split.
  - pose proof (goToSlide_serialized opts _ p 1 HI eq_refl ltac:(done)) as H3.
    rewrite handleLooping_above in H3 by (cbn; lia).
    by destruct (loop opts).
  - pose proof (goToSlide_serialized opts _ p (-1) HI eq_refl ltac:(done)) as H3.
    rewrite handleLooping_below in H3 by (cbn; lia).
    by destruct (loop opts).
Qed.

(** On a carousel with no slide, [next()] throws after it has set
    [isTransitioning] and dispatched [slideChange]; nothing is scheduled
    that would clear the flag. *)
Lemma zero_slides_next_throws opts t0 :
  exists q,
    nextSlide (constructed opts [] t0) = TypeError q /\
    isTransitioning (this q) = true /\ timeouts q = [] /\
    exists to_, dispatched q = [slideChange 0 to_].
Proof.
  unfold nextSlide, goToSlide. cbn.
  destruct (fadeEffect opts) eqn:Hf.
  - unfold fadeToSlide. cbn. rewrite item_None.
    + eexists. split; [reflexivity|]. cbn. eauto.
    + cbn. pose proof (handleLooping_range (loop opts) 1 1). unfold slideCount.
      cbn. unfold handleLooping. cbn. destruct (loop opts); cbn; lia.
  - unfold slideToSlide. cbn. rewrite !andb_false_r.
    eexists. split; [reflexivity|]. cbn. eauto.
Qed.

(** ** Gestures *)

(** Release of a touch sequence: navigation is committed exactly when the
    horizontal delta dominates the vertical one and exceeds 50. *)
Lemma handleTouchEnd_commits (p : Page) :
  isDragging (vars p) = true ->
  let v := vars p in
  let dx := endX v - startX v in
  let dy := endY v - startY v in
  let p1 := set_vars (mkSwipeVars (startX v) (startY v) (endX v) (endY v)
                        false (isMouseDown v)) p in
  let resume := fun q => if isPlaying (this q) then startAutoplay q else Normal q in
  (Z.abs dx > Z.abs dy /\ Z.abs dx > 50 -> 0 < dx ->
   handleTouchEnd p = (prevSlide p1 >>- resume)) /\
  (Z.abs dx > Z.abs dy /\ Z.abs dx > 50 -> dx < 0 ->
   handleTouchEnd p = (nextSlide p1 >>- resume)) /\
  (~ (Z.abs dx > Z.abs dy /\ Z.abs dx > 50) ->
   handleTouchEnd p = resume p1).
Proof.
  intros Hdrag v dx dy p1 resume. unfold handleTouchEnd. rewrite Hdrag.
  cbn [negb]. fold v. fold dx dy. fold p1.
  destruct (Z.gtb_spec (Z.abs dx) (Z.abs dy)),
    (Z.gtb_spec (Z.abs dx) 50), (Z.gtb_spec dx 0);
    cbn [andb]; repeat split; intros; try lia; done.
Qed.


(** C7 (gesture release threshold), as the code has it: a touch sequence
    navigates with |dx| = 51, |dy| = 10 (to the previous slide for dx > 0,
    to the next for dx < 0) and does not with |dx| = 49 or with |dx| = 60,
    |dy| = 70; the mouse handler never looks at the vertical delta, so a
    mouse drag with |dx| = 60 and |dy| = 70 navigates all the same. *)
Theorem C7_mouse_release_ignores_vertical_delta :
  (exists q,
     run [Event (touchstart 100 100); Event (touchmove 151 110);
          Event touchend] three_slides = Some q /\
     dispatched q = [slideChange 0 2]) /\
  (exists q,
     run [Event (touchstart 100 100); Event (touchmove 49 90);
          Event touchend] three_slides = Some q /\
     dispatched q = [slideChange 0 1]) /\
  (exists q,
     run [Event (touchstart 100 100); Event (touchmove 149 100);
          Event touchend] three_slides = Some q /\
     dispatched q = [] /\ isTransitioning (this q) = false) /\
  (exists q,
     run [Event (touchstart 100 100); Event (touchmove 160 170);
          Event touchend] three_slides = Some q /\
     dispatched q = [] /\ isTransitioning (this q) = false) /\
  (exists q,
     run [Event (mousedown 100 100); Event (mousemove 160 170);
          Event mouseup] three_slides = Some q /\
     dispatched q = [slideChange 0 2] /\ isTransitioning (this q) = true).
Proof.
  repeat split; eexists; (split; [vm_compute; reflexivity|]); done.
Qed.

(** Neither [touchstart] nor [mousedown] resets [endX] and [endY]: a press
    released without a move is measured against the end point of the
    previous gesture.  Here a tap at (300, 100) that follows a completed
    swipe ending at (160, 100) navigates to the next slide. *)
Lemma tap_after_swipe_navigates :
  exists q,
    run [Event (touchstart 100 100); Event (touchmove 160 100); Event touchend;
         Elapse 500; TimeoutFires;
         Event (touchstart 300 100); Event touchend] three_slides = Some q /\
    dispatched q = [slideChange 0 2; slideChanged 2; slideChange 2 0].
Proof. eexists. split; [vm_compute; reflexivity | done]. Qed.

(** ** Autoplay suspension *)

(** C8 (suspension preserves user intent), with the conditions under which
    [startAutoplay] arms.  On every carousel [pauseAutoplay] cancels the
    interval, is idempotent, and leaves [isPlaying], [currentSlide] and
    [isTransitioning] unchanged.  With [pauseOnHover], [isPlaying] true,
    autoplay enabled in the options and more than one slide, hover-enter
    cancels the interval without changing [isPlaying] and the hover-leave
    that follows leaves the interval armed.  Once [toggleAutoplay] has set
    [isPlaying] to false, the hover cycle leaves the interval unarmed,
    with or without [pauseOnHover]. *)
Theorem C8_suspension_preserves_intent (p : Page) :
  (exists p',
     pauseAutoplay p = Normal p' /\
     autoplayTimer (this p') = None /\
     isPlaying (this p') = isPlaying (this p) /\
     currentSlide (this p') = currentSlide (this p) /\
     isTransitioning (this p') = isTransitioning (this p) /\
     pauseAutoplay p' = Normal p') /\
  (pauseOnHover (options (this p)) = true ->
   isPlaying (this p) = true ->
   autoplay (options (this p)) = true ->
   1 < slideCount (this p) ->
   hover_cycle_rearms p) /\
  (isPlaying (this p) = true ->
   exists p1,
     toggleAutoplay p = Normal p1 /\
     isPlaying (this p1) = false /\
     hover_cycle_leaves_unarmed p1).
Proof.
  split; [|split].
  - rewrite pauseAutoplay_eq. eexists. split; [reflexivity|].
    cbn. do 4 (split; [done|]).
    rewrite pauseAutoplay_eq. cbn. by destruct (playPauseBtn (this p)).
  - intros Hhover Hplay Ha Hn. unfold hover_cycle_rearms.
    exists (listen mouseenter p), (listen mouseleave (listen mouseenter p)).
    split; [reflexivity|].
    assert (Henter : listen mouseenter p = outcome (pauseAutoplay p)).
    { cbn [listen]. by rewrite Hhover. }
    assert (Hrun : run [Event mouseenter; Event mouseleave] p
                   = Some (listen mouseleave (listen mouseenter p)))
      by reflexivity.
    rewrite Henter, pauseAutoplay_eq in Hrun |- *. cbn [outcome] in Hrun |- *.
    split; [reflexivity|]. split; [reflexivity|]. split; [reflexivity|].
    split; [reflexivity|]. split; [exact Hrun|]. clear Hrun.
    cbn [listen this options]. rewrite Hhover.
    unfold handleMouseLeave. cbn [this isPlaying]. rewrite Hplay.
    rewrite startAutoplay_eq by done. cbn [outcome this options].
    destruct (swipe (options (this p))); cbn; eauto.
  - intros Hplay. unfold toggleAutoplay. rewrite Hplay, pauseAutoplay_eq.
    eexists. split; [reflexivity|]. split; [done|].
    unfold hover_cycle_leaves_unarmed.
    cbn [run step listen this options on_this set_isPlaying].
    destruct (pauseOnHover (options (this p))) eqn:Hhover.
    + unfold handleMouseEnter.
      rewrite pauseAutoplay_eq. cbn [outcome this options]. rewrite Hhover.
      unfold handleMouseLeave. cbn [this isPlaying outcome options].
      destruct (swipe (options (this p))); eexists;
        (split; [reflexivity|]); cbn; eauto.
    + cbn [this options]. rewrite Hhover.
      destruct (swipe (options (this p))); eexists;
        (split; [reflexivity|]); cbn; eauto.
Qed.

(** * Concrete carousels *)

Lemma two_slides_at_last_reachable :
  reachable clampOptions [false; false] two_slides_at_last.
Proof.
  apply (reachable_run clampOptions [false; false]
           [Invoke call_nextSlide; Elapse 500; TimeoutFires]
           (constructed clampOptions [false; false] 0)).
  - apply reachable_constructed.
  - vm_compute. reflexivity.
Qed.

Lemma three_slides_at_1_reachable :
  reachable defaultOptions [false; false; false] three_slides_at_1.
Proof.
  apply (reachable_run defaultOptions [false; false; false]
           [Invoke call_nextSlide; Elapse 500; TimeoutFires] three_slides).
  - apply reachable_constructed.
  - vm_compute. reflexivity.
Qed.

(** On the two-slide carousel without [loop], settled on its last slide,
    two [next()] calls in a row still run one transition to completion, but
    its [slideChanged] carries index 1, the starting index itself: neither
    the next index nor the wrapped one. *)
Lemma C1_clamped_last_slide_settles_on_itself :
  reachable clampOptions [false; false] two_slides_at_last /\
  1 < slideCount (this two_slides_at_last) /\
  isTransitioning (this two_slides_at_last) = false /\
  currentSlide (this two_slides_at_last) = 1 /\
  (exists q,
     run [Invoke call_nextSlide; Invoke call_nextSlide; Elapse 500;
          TimeoutFires] two_slides_at_last = Some q /\
     dispatched q = dispatched two_slides_at_last
                    ++ [slideChange 1 1; slideChanged 1]) /\
  ~ serialized_transition nextSlide two_slides_at_last (1 + 1) /\
  ~ serialized_transition nextSlide two_slides_at_last
      ((1 + 1) `mod` slideCount (this two_slides_at_last)).
Proof.
  split; [apply two_slides_at_last_reachable|].
  split; [done|]. split; [done|]. split; [done|].
  split.
  { eexists. split; [vm_compute; reflexivity|]. done. }
  split.
  - intros (p1 & cb & Hgo & _ & _ & Hd & _).
    vm_compute in Hgo. injection Hgo as <-. vm_compute in Hd. done.
  - intros (p1 & cb & Hgo & _ & _ & Hd & _).
    vm_compute in Hgo. injection Hgo as <-. vm_compute in Hd. done.
Qed.

(** On the freshly constructed one-slide carousel [pauseOnHover] and
    [isPlaying] are both true, yet the pointer entering and leaving does
    not arm the interval. *)
Lemma C8_hover_cycle_on_single_slide :
  reachable defaultOptions [false] one_slide /\
  pauseOnHover (options (this one_slide)) = true /\
  isPlaying (this one_slide) = true /\
  hover_cycle_leaves_unarmed one_slide /\
  ~ hover_cycle_rearms one_slide.
Proof.
  split; [apply reachable_constructed|]. split; [done|]. split; [done|].
  split.
  - eexists. split; [vm_compute; reflexivity|]. done.
  - intros (q1 & q & _ & _ & _ & _ & _ & Hrun & [t Ht] & _).
    vm_compute in Hrun. injection Hrun as <-. done.
Qed.

(** On the two-slide carousel without [loop], on its last slide while the
    transition a [prev()] call started is in flight, [next()] is dropped by
    the [isTransitioning] half of the guard: nothing changes, and no
    [slideChange] with [from = to] is dispatched. *)
Lemma C10_next_dropped_during_transition :
  reachable clampOptions [false; false] two_slides_at_last_moving /\
  loop clampOptions = false /\
  1 <= slideCount (this two_slides_at_last_moving) /\
  currentSlide (this two_slides_at_last_moving)
  = slideCount (this two_slides_at_last_moving) - 1 /\
  isTransitioning (this two_slides_at_last_moving) = true /\
  nextSlide two_slides_at_last_moving = Normal two_slides_at_last_moving /\
  (slideChange 1 1
   ∉ dispatched (outcome (nextSlide two_slides_at_last_moving))) /\
  ~ serialized_transition nextSlide two_slides_at_last_moving
      (slideCount (this two_slides_at_last_moving) - 1).
Proof.
  split.
  { apply (reachable_run clampOptions [false; false]
             [Invoke call_prevSlide] two_slides_at_last).
    - apply two_slides_at_last_reachable.
    - vm_compute. reflexivity. }
  split; [done|]. split; [done|]. split; [done|]. split; [done|].
  split; [reflexivity|].
  split.
  { vm_compute. intros H. repeat (apply elem_of_cons in H as [H|H]; [done|]).
    by apply elem_of_nil in H. }
  intros (p1 & cb & Hgo & _ & _ & Hd & _).
  vm_compute in Hgo. injection Hgo as <-. vm_compute in Hd. done.
Qed.

(** The contract on the concrete carousels. *)

Lemma C1_on_three_slides :
  ((1 < length [false; false; false])%nat /\
   reachable defaultOptions [false; false; false] three_slides /\
   isTransitioning (this three_slides) = false /\
   (loop defaultOptions = true \/
    currentSlide (this three_slides) + 1 < slideCount (this three_slides))) /\
  (serialized_transition nextSlide three_slides 1 /\
   exists p2,
     run [Invoke call_nextSlide; Invoke call_nextSlide; Elapse 500;
          TimeoutFires] three_slides = Some p2 /\
     isTransitioning (this p2) = false /\
     currentSlide (this p2) = 1 /\
     dispatched p2 = dispatched three_slides
                     ++ [slideChange 0 1; slideChanged 1]).
Proof.
  assert (H1 : (1 < length [false; false; false])%nat) by (cbn; lia).
  assert (H2 : reachable defaultOptions [false; false; false] three_slides)
    by apply reachable_constructed.
  assert (H3 : isTransitioning (this three_slides) = false) by reflexivity.
  assert (H4 : loop defaultOptions = true \/
               currentSlide (this three_slides) + 1
               < slideCount (this three_slides)) by (left; reflexivity).
  split; [done|].
  exact (C1_double_next_one_transition defaultOptions [false; false; false]
           three_slides H1 H2 H3 H4).
Defined.

Lemma C2_on_three_slides :
  ([false; false; false] <> [] /\
   reachable defaultOptions [false; false; false] three_slides) /\
  (exists p' cb,
     goToSlide 5 true three_slides = Normal p' /\
     dispatched p' = [slideChange 0 0] /\
     timeouts p' = [(500, cb)] /\ settles_on cb = 0).
Proof.
  assert (H1 : [false; false; false] <> []) by discriminate.
  assert (H2 : reachable defaultOptions [false; false; false] three_slides)
    by apply reachable_constructed.
  split; [done|].
  destruct (C2_boundary_policy defaultOptions [false; false; false]
              three_slides 5 H1 H2) as (_ & _ & _ & Hgo).
  destruct (Hgo eq_refl ltac:(discriminate)) as [Hanim _].
  exact Hanim.
Defined.

Lemma C3_on_three_slides :
  ((1 < length [false; false; false])%nat /\
   loop defaultOptions = true /\
   reachable defaultOptions [false; false; false] three_slides /\
   currentSlide (this three_slides) = 0 /\
   isTransitioning (this three_slides) = false) /\
  (exists visited q,
     tour 3 three_slides = Some (visited, q) /\
     currentSlide (this q) = 0 /\
     isTransitioning (this q) = false /\
     visited = [1; 2; 0] /\
     NoDup visited /\
     (forall i, i ∈ visited <-> 0 <= i < 3)).
Proof.
  assert (H1 : (1 < length [false; false; false])%nat) by (cbn; lia).
  assert (H3 : reachable defaultOptions [false; false; false] three_slides)
    by apply reachable_constructed.
  split; [done|].
  exact (C3_loop_round_trip defaultOptions [false; false; false] three_slides
           H1 eq_refl H3 eq_refl eq_refl).
Defined.

Lemma C8_on_three_slides :
  pauseOnHover (options (this three_slides)) = true /\
  isPlaying (this three_slides) = true /\
  autoplay (options (this three_slides)) = true /\
  1 < slideCount (this three_slides) /\
  hover_cycle_rearms three_slides /\
  (exists p1,
     toggleAutoplay three_slides = Normal p1 /\
     isPlaying (this p1) = false /\
     hover_cycle_leaves_unarmed p1).
Proof.
  assert (H1 : pauseOnHover (options (this three_slides)) = true)
    by reflexivity.
  assert (H4 : 1 < slideCount (this three_slides)) by reflexivity.
  destruct (C8_suspension_preserves_intent three_slides)
    as (_ & Hre & Hun).
  split; [done|]. split; [done|]. split; [done|]. split; [done|].
  split; [exact (Hre H1 eq_refl eq_refl H4) | exact (Hun eq_refl)].
Defined.

Lemma C9_on_three_slides_at_1 :
  [false; false; false] <> [] /\
  reachable defaultOptions [false; false; false] three_slides_at_1 /\
  0 <= currentSlide (this three_slides_at_1)
    < slideCount (this three_slides_at_1).
Proof.
  assert (H1 : [false; false; false] <> []) by discriminate.
  split; [done|]. split; [apply three_slides_at_1_reachable|].
  exact (C9_index_in_range defaultOptions [false; false; false]
           three_slides_at_1 H1 three_slides_at_1_reachable).
Defined.

Lemma C10_on_two_slides_at_last :
  ([false; false] <> [] /\
   reachable clampOptions [false; false] two_slides_at_last /\
   loop clampOptions = false /\
   isTransitioning (this two_slides_at_last) = false /\
   currentSlide (this two_slides_at_last)
   = slideCount (this two_slides_at_last) - 1) /\
  serialized_transition nextSlide two_slides_at_last 1.
Proof.
  assert (H1 : [false; false] <> []) by discriminate.
  split; [by repeat split; try apply two_slides_at_last_reachable|].
  destruct (C10_self_transition_at_clamped_boundary clampOptions
              [false; false] two_slides_at_last H1
              two_slides_at_last_reachable eq_refl eq_refl) as [Hnext _].
  exact (Hnext eq_refl).
Defined.

(** * Further properties of the carousel *)

(** ** The methods in closed form *)

Lemma pauseAutoplay_paused (p : Page) : pauseAutoplay p = Normal (paused p).
Proof. apply pauseAutoplay_eq. Qed.

Lemma startAutoplay_armed (p : Page) :
  autoplay (options (this p)) = true -> 1 < slideCount (this p) ->
  startAutoplay p = Normal (armed p).
Proof. apply startAutoplay_eq. Qed.

Lemma goToSlide_started opts n (p : Page) index :
  Inv opts n p ->
  isTransitioning (this p) = false ->
  index <> currentSlide (this p) ->
  goToSlide index true p
  = Normal (started (handleLooping (loop opts) (Z.of_nat n) index) p).
Proof.
  intros [Ho Hs Hc Hi Hd Hctl Ht Hp] Htr Hne.
  assert (Hn : 0 < Z.of_nat n) by lia.
  pose proof (handleLooping_range (loop opts) (Z.of_nat n) index Hn) as Hr.
  unfold goToSlide. rewrite Htr, bool_decide_eq_false_2 by done. cbn.
  unfold slideCount. rewrite Hs, Ho. unfold started. rewrite Ho.
  destruct (fadeEffect opts).
  - rewrite fadeToSlide_Normal; cbn; unfold slideCount; cbn;
      rewrite ?Hs; [|done..]. by rewrite ?Ho.
  - rewrite slideToSlide_Normal by done. cbn. by rewrite ?Ho.
Qed.

Lemma goToSlide_placed opts n (p : Page) index :
  Inv opts n p ->
  isTransitioning (this p) = false ->
  index <> currentSlide (this p) ->
  goToSlide index false p
  = Normal (placed (handleLooping (loop opts) (Z.of_nat n) index) p).
Proof.
  intros [Ho Hs Hc Hi Hd Hctl Ht Hp] Htr Hne.
  assert (Hn : 0 < Z.of_nat n) by lia.
  pose proof (handleLooping_range (loop opts) (Z.of_nat n) index Hn) as Hr.
  unfold goToSlide. rewrite Htr, bool_decide_eq_false_2 by done. cbn.
  unfold slideCount. rewrite Hs, Ho.
  rewrite setSlide_Normal; unfold slideCount; rewrite ?Hs; done.
Qed.

Lemma TimeoutFires_completed opts n (p : Page) due cb :
  Inv opts n p -> timeouts p = [(due, cb)] -> due <= now p ->
  step TimeoutFires p = Some (completed cb p).
Proof.
  intros [Ho Hs Hc Hi Hd Hctl Ht Hp] Hto Hdue.
  destruct (isTransitioning (this p)) eqn:Htr; [|congruence].
  destruct Hp as (due' & cb' & Hp & Hok).
  assert (cb' = cb) as -> by congruence. clear Hp.
  cbn. rewrite Hto, decide_True by done.
  assert (Hdots : forall ds, dots (this p) = Some ds ->
                             length ds = length (slides (this p))).
  { intros ds Hds. rewrite Hs. eauto. }
  destruct cb as [outgoing incoming | index]; cbn in Hok;
    unfold runCallback, completed; cbn.
  - rewrite updateSlideState_Normal; cbn; unfold slideCount; cbn;
      rewrite ?length_dropActive, ?Hs; [|lia|done].
    by rewrite removeActive_dropActive.
  - rewrite updateSlideState_Normal; cbn; unfold slideCount; cbn;
      rewrite ?Hs; [|lia|done].
    done.
Qed.

Lemma destroy_destroyed opts n (p : Page) :
  Inv opts n p -> destroy p = Normal (destroyed p).
Proof.
  intros HI. unfold destroy, destroyed, paused. rewrite pauseAutoplay_eq. cbn.
  destruct (inv_inner _ _ _ HI) as [tr ->]. done.
Qed.

(** ** Induction over the effects of the methods *)

(** Every reachable state of a carousel with at least one slide is obtained
    from the constructed one by the effects below; a property kept by each
    of them holds in every reachable state. *)
Section Effects.
Context (opts : Options) (children : list bool) (P : Page -> Prop).
Local Abbreviation n := (length children).
Hypothesis nonempty : children <> [].
Hypothesis P_constructed : forall t0, P (constructed opts children t0).
Hypothesis P_frame : forall p v t,
  Inv opts n p -> P p -> P (mkPage (this p) v t (timeouts p) (dispatched p)).
Hypothesis P_paused : forall p, Inv opts n p -> P p -> P (paused p).
Hypothesis P_armed : forall p,
  Inv opts n p -> P p -> autoplay opts = true -> (1 < n)%nat -> P (armed p).
Hypothesis P_toggled_off : forall p,
  Inv opts n p -> P p -> isPlaying (this p) = true ->
  P (paused (on_this (set_isPlaying false) p)).
Hypothesis P_toggled_on : forall p,
  Inv opts n p -> P p -> isPlaying (this p) = false ->
  P (on_this (set_isPlaying true) p).
Hypothesis P_started : forall p r,
  Inv opts n p -> P p -> isTransitioning (this p) = false ->
  0 <= r < Z.of_nat n -> P (started r p).
Hypothesis P_placed : forall p r,
  Inv opts n p -> P p -> isTransitioning (this p) = false ->
  0 <= r < Z.of_nat n -> P (placed r p).
Hypothesis P_completed : forall p due cb,
  Inv opts n p -> P p -> timeouts p = [(due, cb)] -> callback_ok n cb ->
  P (completed cb p).
Hypothesis P_destroyed : forall p, Inv opts n p -> P p -> P (destroyed p).
Hypothesis P_rearmed : forall p due,
  Inv opts n p -> P p -> autoplayTimer (this p) = Some due ->
  P (setInterval (autoplayDelay opts) p).

Local Abbreviation Q := (fun p => Inv opts n p /\ P p).

Lemma Q_set_vars v p : Q p -> Q (set_vars v p).
Proof. intros [HI HP]. split; [by apply Inv_frame | by apply P_frame]. Qed.

Lemma Q_pauseAutoplay p : Q p -> exists p', pauseAutoplay p = Normal p' /\ Q p'.
Proof.
  intros [HI HP]. destruct (pauseAutoplay_Inv opts n p HI) as (p' & Hp & HI').
  exists p'. split; [done|]. split; [done|].
  rewrite pauseAutoplay_paused in Hp. injection Hp as <-. by apply P_paused.
Qed.

Lemma Q_startAutoplay p : Q p -> exists p', startAutoplay p = Normal p' /\ Q p'.
Proof.
  intros [HI HP]. destruct (startAutoplay_Inv opts n p HI) as (p' & Hp & HI').
  exists p'. split; [done|]. split; [done|].
  destruct (autoplay (options (this p))) eqn:Ha; cycle 1.
  { rewrite startAutoplay_inert in Hp by (by left). by injection Hp as <-. }
  destruct (decide (slideCount (this p) <= 1)) as [Hle|Hgt].
  { rewrite startAutoplay_inert in Hp by (by right). by injection Hp as <-. }
  rewrite startAutoplay_armed in Hp by (done || lia). injection Hp as <-.
  unfold slideCount in Hgt.
  rewrite (inv_slides _ _ _ HI) in Hgt. rewrite (inv_options _ _ _ HI) in Ha.
  apply P_armed; [done | done | done | lia].
Qed.

Lemma Q_toggleAutoplay p : Q p -> exists p', toggleAutoplay p = Normal p' /\ Q p'.
Proof.
  intros [HI HP]. unfold toggleAutoplay.
  destruct (isPlaying (this p)) eqn:Hplay.
  - rewrite pauseAutoplay_paused. eexists. split; [reflexivity|]. split.
    + destruct (pauseAutoplay_Inv opts n (on_this (set_isPlaying false) p))
        as (p' & Hp & HI'); [destruct HI; by constructor|].
      rewrite pauseAutoplay_paused in Hp. by injection Hp as <-.
    + by apply P_toggled_off.
  - apply Q_startAutoplay. split.
    + destruct HI; by constructor.
    + by apply P_toggled_on.
Qed.

Lemma Q_goToSlide index animate p :
  Q p -> exists p', goToSlide index animate p = Normal p' /\ Q p'.
Proof.
  intros [HI HP].
  destruct (goToSlide_Inv opts n index animate p HI) as (p' & Hp & HI').
  exists p'. split; [done|]. split; [done|].
  destruct (isTransitioning (this p)) eqn:Htr.
  { rewrite goToSlide_dropped in Hp by (by left). by injection Hp as <-. }
  destruct (decide (index = currentSlide (this p))) as [He|Hne].
  { rewrite goToSlide_dropped in Hp by (by right). by injection Hp as <-. }
  assert (Hr : 0 <= handleLooping (loop opts) (Z.of_nat n) index < Z.of_nat n).
  { apply handleLooping_range. pose proof (inv_current _ _ _ HI). lia. }
  destruct animate.
  - rewrite (goToSlide_started opts n) in Hp by done. injection Hp as <-.
    by apply P_started.
  - rewrite (goToSlide_placed opts n) in Hp by done. injection Hp as <-.
    by apply P_placed.
Qed.

Lemma Q_nextSlide p : Q p -> exists p', nextSlide p = Normal p' /\ Q p'.
Proof. apply Q_goToSlide. Qed.

Lemma Q_prevSlide p : Q p -> exists p', prevSlide p = Normal p' /\ Q p'.
Proof. apply Q_goToSlide. Qed.

Lemma Q_destroy p : Q p -> exists p', destroy p = Normal p' /\ Q p'.
Proof.
  intros [HI HP]. destruct (destroy_Inv opts n p HI) as (p' & Hp & HI').
  exists p'. split; [done|]. split; [done|].
  rewrite (destroy_destroyed opts n) in Hp by done. injection Hp as <-.
  by apply P_destroyed.
Qed.

Lemma Q_outcome (c : Completion) :
  (exists p', c = Normal p' /\ Q p') -> Q (outcome c).
Proof. by intros (p' & -> & H). Qed.

Lemma Q_andThen (c : Completion) (k : Page -> Completion) :
  (exists p1, c = Normal p1 /\ Q p1) ->
  (forall p1, Q p1 -> exists p', k p1 = Normal p' /\ Q p') ->
  exists p', (c >>- k) = Normal p' /\ Q p'.
Proof. intros (p1 & -> & H1) Hk. cbn. eauto. Qed.

Lemma Q_handleMouseLeave p :
  Q p -> exists p', handleMouseLeave p = Normal p' /\ Q p'.
Proof.
  intros HQ. unfold handleMouseLeave.
  destruct (isPlaying (this p)); eauto using Q_startAutoplay.
Qed.

Lemma Q_handleTouchEnd p :
  Q p -> exists p', handleTouchEnd p = Normal p' /\ Q p'.
Proof.
  intros HQ. unfold handleTouchEnd.
  destruct (negb (isDragging (vars p))); [eauto|].
  apply Q_andThen.
  - repeat case_match; eauto using Q_nextSlide, Q_prevSlide, Q_set_vars.
  - intros p1 H1. destruct (isPlaying (this p1)); eauto using Q_startAutoplay.
Qed.

Lemma Q_handleMouseUp p :
  Q p -> exists p', handleMouseUp p = Normal p' /\ Q p'.
Proof.
  intros HQ. unfold handleMouseUp.
  repeat case_match; eauto using Q_nextSlide, Q_prevSlide, Q_set_vars.
Qed.

Lemma Q_listen e p : Q p -> Q (listen e p).
Proof.
  intros HQ.
  destruct e; cbn -[handleTouchEnd handleMouseLeave handleMouseUp];
    repeat case_match; try done;
    try (apply Q_set_vars);
    try (apply Q_outcome);
    unfold handleKeyDown, handleMouseEnter,
      handleVisibilityChange, handleTouchStart, handleTouchMove,
      handleMouseDown, handleMouseMove, handleMouseLeaveSwipe;
    repeat case_match;
    eauto using Q_pauseAutoplay, Q_startAutoplay, Q_toggleAutoplay,
      Q_goToSlide, Q_nextSlide, Q_prevSlide, Q_set_vars,
      Q_handleMouseLeave, Q_handleTouchEnd, Q_handleMouseUp.
Qed.

Lemma Q_invoke c p : Q p -> exists p', invoke c p = Normal p' /\ Q p'.
Proof.
  intros HQ. destruct c; cbn;
    eauto using Q_pauseAutoplay, Q_startAutoplay, Q_toggleAutoplay,
      Q_goToSlide, Q_nextSlide, Q_prevSlide, Q_destroy.
Qed.

Lemma Q_step t p p' : Q p -> step t p = Some p' -> Q p'.
Proof.
  intros HQ Hstep. destruct t.
  - cbn in Hstep. injection Hstep as <-. by apply Q_outcome, Q_invoke.
  - cbn in Hstep. injection Hstep as <-. by apply Q_listen.
  - destruct HQ as [HI HP]. split; [by eapply step_Inv|].
    pose proof (inv_pending _ _ _ HI) as Hpend.
    destruct (timeouts p) as [|[due cb] rest] eqn:Hto.
    { by cbn in Hstep; rewrite Hto in Hstep. }
    destruct (isTransitioning (this p)); [|done].
    destruct Hpend as (due' & cb' & [= -> -> ->] & Hok).
    destruct (decide (due' <= now p)) as [Hdue|Hdue].
    + rewrite (TimeoutFires_completed opts n p due' cb') in Hstep by done.
      injection Hstep as <-. by eapply P_completed.
    + cbn in Hstep. rewrite Hto in Hstep. by rewrite decide_False in Hstep.
  - unfold step in Hstep.
    destruct (autoplayTimer (this p)) as [due|] eqn:Ht; [|done].
    case_decide; [|done]. injection Hstep as <-.
    apply Q_outcome, Q_nextSlide. destruct HQ as [HI HP]. split.
    + destruct HI. constructor; cbn; eauto.
    + pose proof (P_rearmed p due HI HP Ht) as HP'.
      rewrite <- (inv_options _ _ _ HI) in HP'. exact HP'.
  - cbn in Hstep. case_decide; [|done]. injection Hstep as <-.
    destruct HQ as [HI HP]. split; [by apply Inv_frame | by apply P_frame].
Qed.

Lemma reachable_effects_ind p : reachable opts children p -> P p.
Proof.
  intros Hr. enough (Q p) as [_ HP] by done.
  induction Hr as [t0 p Hc | t p p' _ IH Hstep].
  - rewrite construct_eq in Hc. injection Hc as <-.
    split; [by apply constructed_Inv | apply P_constructed].
  - by eapply Q_step.
Qed.
End Effects.

(** ** Controls and autoplay state *)

Ltac is_Some_cases b :=
  destruct b;
  (split;
   [ let H := fresh in intros H; by (done || destruct H as [? [=]])
   | let H := fresh in intros H; by (eauto || done) ]).

Lemma fmap_Some_inv {A B} (f : A -> B) (mx : option A) (y : B) :
  f <$> mx = Some y -> exists x, mx = Some x /\ y = f x.
Proof. destruct mx; [intros [= <-]; eauto | done]. Qed.

Ltac controls_kept :=
  constructor; cbn; rewrite ?fmap_is_Some; try done;
  try (by intros [? [=]]);
  try (let icon := fresh "icon" in
       let x := fresh "x" in
       let H := fresh "H" in
       intros icon H; apply fmap_Some_inv in H as [x [_ ->]];
       split; first [done | by intros [? [=]] | by eauto]).

Lemma reachable_Controls opts children (p : Page) :
  children <> [] -> reachable opts children p ->
  Controls opts (length children) p.
Proof.
  intros Hne. apply reachable_effects_ind; try done.
  - intros t0. destruct children as [|c l]; [done|].
    constructor; cbn [constructed this arrowButtons dots playPauseBtn
                      autoplayTimer isPlaying]; try done.
    + is_Some_cases ((1 <? Z.of_nat (length (c :: l))) && showDots opts).
    + is_Some_cases ((1 <? Z.of_nat (length (c :: l))) && autoplay opts).
    + destruct (autoplay opts); [done|]. by intros [? [=]].
    + intros icon. rewrite (andb_comm (autoplay opts)).
      destruct ((1 <? Z.of_nat (length (c :: l))) && autoplay opts);
        [|done]. intros [= <-]. split; eauto.
  - intros q v t _ []. by constructor.
  - intros q _ []. controls_kept.
  - intros q _ [] _ _. controls_kept.
  - intros q _ [] _. controls_kept.
  - intros q _ [] Hplay. by constructor.
  - intros q r _ [] _ _. by constructor.
  - intros q r _ [] _ _. controls_kept.
  - intros q due cb _ [] _ _. controls_kept.
  - intros q _ []. controls_kept.
  - intros q due _ [] Ht. constructor; cbn; try done.
    + intros _. apply ctl_playing0. by rewrite Ht.
    + intros icon Hicon. rewrite (ctl_icon0 icon Hicon), Ht. split; eauto.
Qed.

(** X1 (an armed interval means autoplay is wanted): in every reachable
    state of a carousel with at least one slide, if the autoplay interval is
    armed then [isPlaying] is true, autoplay is enabled in the options and
    there is more than one slide. *)
Theorem X1_armed_interval_means_playing opts children (p : Page) :
  children <> [] ->
  reachable opts children p ->
  is_Some (autoplayTimer (this p)) ->
  isPlaying (this p) = true /\ autoplay opts = true /\ 1 < slideCount (this p).
Proof.
  intros Hne Hr Ht.
  pose proof (reachable_Inv opts children p Hne Hr) as HI.
  pose proof (reachable_Controls opts children p Hne Hr) as HC.
  destruct (inv_timer _ _ _ HI Ht) as [Ha Hn].
  split; [by apply (ctl_playing _ _ _ HC)|]. split; [done|].
  unfold slideCount. rewrite (inv_slides _ _ _ HI). lia.
Qed.

(** X2 (the play/pause button tells whether the interval is armed): in
    every reachable state of a carousel with at least one slide, when the
    play/pause button exists it shows the pause icon exactly when the
    autoplay interval is armed -- so it shows the play icon during a hover
    or drag suspension, although [isPlaying] is still true. *)
Theorem X2_pause_icon_iff_armed opts children (p : Page) (icon : Icon) :
  children <> [] ->
  reachable opts children p ->
  playPauseBtn (this p) = Some icon ->
  (icon = fa_pause <-> is_Some (autoplayTimer (this p))).
Proof.
  intros Hne Hr Hb.
  by apply (ctl_icon _ _ _ (reachable_Controls opts children p Hne Hr)).
Qed.

(** X3 (the instance's control references are fixed by the options and the
    slide count): in every reachable state of a carousel with at least one
    slide, [destroy] included, the instance holds its arrow references
    ([this.prevArrow], [this.nextArrow]) exactly when there is more than one
    slide and [showArrows] is set, [this.dots] exactly when there is more
    than one slide and [showDots] is set, with one dot per slide, and
    [this.playPauseBtn] exactly when there is more than one slide and
    [autoplay] is set.  The statement is about the references, which is
    what the methods and listeners test: [destroy] takes the elements out of
    the document and keeps the references. *)
Theorem X3_controls_follow_options opts children (p : Page) :
  children <> [] ->
  reachable opts children p ->
  arrowButtons (this p) = (1 <? slideCount (this p)) && showArrows opts /\
  (is_Some (dots (this p))
   <-> (1 <? slideCount (this p)) && showDots opts = true) /\
  (forall ds, dots (this p) = Some ds ->
              Z.of_nat (length ds) = slideCount (this p)) /\
  (is_Some (playPauseBtn (this p))
   <-> (1 <? slideCount (this p)) && autoplay opts = true).
Proof.
  intros Hne Hr.
  pose proof (reachable_Inv opts children p Hne Hr) as HI.
  destruct (reachable_Controls opts children p Hne Hr).
  unfold slideCount. rewrite (inv_slides _ _ _ HI).
  repeat split; try done; try tauto.
  intros ds Hds. by rewrite (inv_dots _ _ _ HI ds Hds).
Qed.

(** ** The track *)

Lemma reachable_track_agrees opts children (p : Page) :
  children <> [] -> reachable opts children p -> track_agrees p.
Proof.
  intros Hne. apply reachable_effects_ind; try done.
  - intros t0. destruct children as [|c l]; [done|].
    unfold track_agrees, shown. cbn. destruct (fadeEffect opts); eauto.
  - intros q r HI Hq Htr _. pose proof (inv_pending _ _ _ HI) as Hp.
    rewrite Htr in Hp. unfold track_agrees, shown in *. cbn. rewrite Hp.
    cbn. destruct (fadeEffect (options (this q))); cbn; eauto.
  - intros q r HI Hq Htr _. pose proof (inv_pending _ _ _ HI) as Hp.
    rewrite Htr in Hp. unfold track_agrees, shown in *. cbn. rewrite Hp.
    destruct (fadeEffect (options (this q))); cbn; eauto.
  - intros q due cb HI Hq Hto _. unfold track_agrees, shown in *. cbn.
    by rewrite Hto in Hq.
Qed.

(** X4 (the track offset agrees with the slide on display): in every
    reachable state of a carousel with at least one slide, a fade carousel
    has never moved its track, and a displacement carousel has its track at
    -100% times the slide on display -- the target of the transition in
    flight, or the current slide when settled -- the offset being still
    unset only while that slide is slide 0. *)
Theorem X4_track_offset_agrees opts children (p : Page) :
  children <> [] ->
  reachable opts children p ->
  (fadeEffect opts = true -> carouselInner (this p) = Some transform_unset) /\
  (fadeEffect opts = false ->
   carouselInner (this p) = Some (translateX (- shown p * 100)) \/
   (carouselInner (this p) = Some transform_unset /\ shown p = 0)) /\
  (isTransitioning (this p) = false -> shown p = currentSlide (this p)).
Proof.
  intros Hne Hr.
  pose proof (reachable_Inv opts children p Hne Hr) as HI.
  pose proof (reachable_track_agrees opts children p Hne Hr) as HT.
  unfold track_agrees in HT. rewrite (inv_options _ _ _ HI) in HT.
  split; [|split].
  - intros Hf. by rewrite Hf in HT.
  - intros Hf. by rewrite Hf in HT.
  - intros Htr. pose proof (inv_pending _ _ _ HI) as Hp. rewrite Htr in Hp.
    unfold shown. by rewrite Hp.
Qed.

(** ** The event log *)

Lemma reachable_log_well_formed opts children (p : Page) :
  children <> [] -> reachable opts children p -> log_well_formed p.
Proof.
  intros Hne. apply reachable_effects_ind; try done.
  - intros t0. unfold log_well_formed. cbn. constructor.
  - intros q r HI Hq Htr _. pose proof (inv_pending _ _ _ HI) as Hp.
    rewrite Htr in Hp. unfold log_well_formed in *. rewrite Htr in Hq. cbn.
    rewrite Hp. cbn.
    destruct (fadeEffect (options (this q))).
    + by exists (dispatched q), (currentSlide (this q)), (now q + 500),
        (fadeCleanup (currentSlide (this q)) r).
    + by exists (dispatched q), (currentSlide (this q)), (now q + 500),
        (slideCleanup r).
  - intros q r HI Hq Htr _. unfold log_well_formed in *.
    rewrite Htr in Hq. done.
  - intros q due cb HI Hq Hto _. pose proof (inv_pending _ _ _ HI) as Hp.
    unfold log_well_formed in *. cbn.
    destruct (isTransitioning (this q)); [|congruence].
    destruct Hq as (log & from & due' & cb' & Hlog & Hd & Hto').
    assert (cb' = cb) as -> by congruence.
    rewrite Hd, <- app_assoc. cbn. by constructor.
Qed.

(** X5 (notifications come in pairs): in every reachable state of a carousel
    with at least one slide, the events dispatched so far are a sequence of
    pairs, each [slideChange] immediately followed by the [slideChanged] of
    its target, followed -- exactly when a transition is in flight -- by
    the one [slideChange] still waiting for its completion, whose target is
    the slide the pending callback will settle on. *)
Theorem X5_notifications_paired opts children (p : Page) :
  children <> [] ->
  reachable opts children p ->
  (isTransitioning (this p) = false -> paired (dispatched p)) /\
  (isTransitioning (this p) = true ->
   exists log from due cb,
     paired log /\
     dispatched p = log ++ [slideChange from (settles_on cb)] /\
     timeouts p = [(due, cb)]).
Proof.
  intros Hne Hr.
  pose proof (reachable_log_well_formed opts children p Hne Hr) as HL.
  unfold log_well_formed in HL.
  split; intros Htr; by rewrite Htr in HL.
Qed.

(** ** Exceptions *)

Lemma runCallback_completed opts n (p : Page) due cb :
  Inv opts n p -> timeouts p = [(due, cb)] ->
  runCallback cb (set_timeouts [] p) = Normal (completed cb p).
Proof.
  intros [Ho Hs Hc Hi Hd Hctl Ht Hp] Hto.
  destruct (isTransitioning (this p)) eqn:Htr; [|congruence].
  destruct Hp as (due' & cb' & Hp & Hok).
  assert (cb' = cb) as -> by congruence. clear Hp.
  assert (Hdots : forall ds, dots (this p) = Some ds ->
                             length ds = length (slides (this p))).
  { intros ds Hds. rewrite Hs. eauto. }
  destruct cb as [outgoing incoming | index]; cbn in Hok;
    unfold runCallback, completed; cbn.
  - rewrite updateSlideState_Normal; cbn; unfold slideCount; cbn;
      rewrite ?length_dropActive, ?Hs; [|lia|done].
    by rewrite removeActive_dropActive.
  - rewrite updateSlideState_Normal; cbn; unfold slideCount; cbn;
      rewrite ?Hs; [|lia|done].
    done.
Qed.

(** X6 (no exception once there is a slide): in every reachable state of a
    carousel with at least one slide, every method call ([nextSlide],
    [prevSlide], [goToSlide] with any integer and either mode, the autoplay
    methods, [destroy]), every keyboard, touch-release and mouse-release
    handler and the pending completion callback complete normally: no
    property of [undefined] is ever accessed. *)
Theorem X6_no_exception_with_slides opts children (p : Page) :
  children <> [] ->
  reachable opts children p ->
  (forall c, exists p', invoke c p = Normal p') /\
  (forall key, exists p', handleKeyDown key p = Normal p') /\
  (exists p', handleTouchEnd p = Normal p') /\
  (exists p', handleMouseUp p = Normal p') /\
  (forall due cb rest,
     timeouts p = (due, cb) :: rest ->
     exists p', runCallback cb (set_timeouts rest p) = Normal p').
Proof.
  intros Hne Hr.
  pose proof (reachable_Inv opts children p Hne Hr) as HI.
  split; [|split; [|split; [|split]]].
  - intros c. destruct (invoke_Inv opts _ c p HI) as (p' & ? & _). eauto.
  - intros [].
    + destruct (prevSlide_Inv opts _ p HI) as (p' & ? & _). eauto.
    + destruct (nextSlide_Inv opts _ p HI) as (p' & ? & _). eauto.
    + destruct (toggleAutoplay_Inv opts _ p HI) as (p' & ? & _). eauto.
    + cbn. eauto.
  - destruct (handleTouchEnd_Inv opts _ p HI) as (p' & ? & _). eauto.
  - destruct (handleMouseUp_Inv opts _ p HI) as (p' & ? & _). eauto.
  - intros due cb rest Hto.
    pose proof (inv_pending _ _ _ HI) as Hp.
    destruct (isTransitioning (this p)); [|congruence].
    destruct Hp as (due' & cb' & Hp & _).
    rewrite Hp in Hto. injection Hto as -> -> <-.
    rewrite (runCallback_completed opts (length children) p due cb) by done.
    eauto.
Qed.

Lemma run_wedged ts (q q' : Page) :
  isTransitioning (this q) = true -> timeouts q = [] ->
  run ts q = Some q' -> nav_state q' = nav_state q.
Proof.
  revert q. induction ts as [|t ts IH]; intros q Htr Hto Hrun; cbn in Hrun.
  - by injection Hrun as <-.
  - destruct (step t q) as [q1|] eqn:Hs; [|done].
    assert (Ht : t <> TimeoutFires).
    { intros ->. cbn in Hs. by rewrite Hto in Hs. }
    pose proof (step_in_flight t q q1 Ht Htr Hs) as H1.
    rewrite <- H1. apply IH; [| |done]; unfold nav_state in H1; congruence.
Qed.

(** X7 (an empty carousel wedges at the first navigation): on a carousel
    constructed on a container with no panel, [next()] and [prev()] throw a
    TypeError after [isTransitioning] was set and [slideChange] dispatched,
    and no completion is scheduled; from then on, whatever happens, the flag
    stays set, so every later navigation request is dropped and nothing is
    dispatched any more. *)
Theorem X7_empty_carousel_wedges opts t0 (request : Page -> Completion) :
  request = nextSlide \/ request = prevSlide ->
  exists q to_,
    request (constructed opts [] t0) = TypeError q /\
    isTransitioning (this q) = true /\
    timeouts q = [] /\
    dispatched q = [slideChange 0 to_] /\
    forall ts q',
      run ts q = Some q' ->
      isTransitioning (this q') = true /\
      currentSlide (this q') = 0 /\
      dispatched q' = [slideChange 0 to_].
Proof.
  intros Hreq.
  assert (Hgo : forall index, index <> 0 ->
    exists q to_,
      goToSlide index true (constructed opts [] t0) = TypeError q /\
      isTransitioning (this q) = true /\ timeouts q = [] /\
      currentSlide (this q) = 0 /\
      dispatched q = [slideChange 0 to_]).
  { intros index Hindex. unfold goToSlide. cbn.
    rewrite bool_decide_eq_false_2 by done. cbn.
    destruct (fadeEffect opts) eqn:Hf.
    - unfold fadeToSlide. cbn. rewrite item_None by (cbn; lia).
      eexists _, _. split; [reflexivity|]. cbn. done.
    - unfold slideToSlide. cbn. rewrite !andb_false_r.
      eexists _, _. split; [reflexivity|]. cbn. done. }
  assert (Hq : exists q to_,
      request (constructed opts [] t0) = TypeError q /\
      isTransitioning (this q) = true /\ timeouts q = [] /\
      currentSlide (this q) = 0 /\
      dispatched q = [slideChange 0 to_]).
  { destruct Hreq as [-> | ->]; unfold nextSlide, prevSlide;
      by apply Hgo. }
  destruct Hq as (q & to_ & Hthrow & Htr & Hto & Hc & Hd).
  exists q, to_. do 4 (split; [done|]).
  intros ts q' Hrun.
  pose proof (run_wedged ts q q' Htr Hto Hrun) as Hnav.
  unfold nav_state in Hnav. injection Hnav as -> -> _ ->. done.
Qed.

(** X8 (at most one transition in flight): in every reachable state of a
    carousel with at least one slide, either no transition is in flight and
    no completion callback is pending, or one is in flight and exactly one
    completion callback is pending, which will settle on a slide of the
    carousel. *)
Theorem X8_one_pending_completion opts children (p : Page) :
  children <> [] ->
  reachable opts children p ->
  (isTransitioning (this p) = false /\ timeouts p = []) \/
  (isTransitioning (this p) = true /\
   exists due cb,
     timeouts p = [(due, cb)] /\
     0 <= settles_on cb < slideCount (this p)).
Proof.
  intros Hne Hr.
  pose proof (reachable_Inv opts children p Hne Hr) as HI.
  pose proof (inv_pending _ _ _ HI) as Hp.
  unfold slideCount. rewrite (inv_slides _ _ _ HI).
  destruct (isTransitioning (this p)); [right | by left].
  split; [done|]. destruct Hp as (due & cb & Hto & Hok).
  exists due, cb. split; [done|]. destruct cb; cbn in *; lia.
Qed.

(** ** Exclusive marking *)

Lemma item_addActive_removeActive arr (r i : Z) :
  0 <= r < Z.of_nat (length arr) -> 0 <= i < Z.of_nat (length arr) ->
  item (addActive (removeActive arr) r) i = Some (bool_decide (i = r)).
Proof.
  intros Hr Hi. unfold item, addActive, removeActive.
  rewrite decide_True by lia.
  destruct (decide (i = r)) as [->|Hne].
  - rewrite bool_decide_eq_true_2 by done.
    apply list_lookup_insert_eq. rewrite length_fmap. lia.
  - rewrite bool_decide_eq_false_2 by done.
    rewrite list_lookup_insert_ne by lia.
    rewrite list_lookup_fmap.
    destruct (lookup_lt_is_Some_2 arr (Z.to_nat i)) as [b ->]; [lia|]. done.
Qed.

(** X9 (after a transition exactly one slide is active): when the completion
    callback of a transition runs on a carousel with at least one slide, the
    slide at the new [currentSlide] is the only slide marked active and,
    when the dots exist, the dot at that index is the only dot marked
    active, whichever strategy (fade or displacement) ran the transition. *)
Theorem X9_completion_marks_one_slide opts children (p p' : Page) :
  children <> [] ->
  reachable opts children p ->
  step TimeoutFires p = Some p' ->
  forall i, 0 <= i < slideCount (this p') ->
    item (slides (this p')) i = Some (bool_decide (i = currentSlide (this p'))) /\
    forall ds, dots (this p') = Some ds ->
               item ds i = Some (bool_decide (i = currentSlide (this p'))).
Proof.
  intros Hne Hr Hstep i Hi.
  pose proof (reachable_Inv opts children p Hne Hr) as HI.
  pose proof (inv_pending _ _ _ HI) as Hp.
  destruct (timeouts p) as [|[due cb] rest] eqn:Hto.
  { by cbn in Hstep; rewrite Hto in Hstep. }
  destruct (isTransitioning (this p)); [|done].
  destruct Hp as (due' & cb' & [= -> -> ->] & Hok).
  destruct (decide (due' <= now p)) as [Hdue|Hdue]; cycle 1.
  { cbn in Hstep. rewrite Hto in Hstep. by rewrite decide_False in Hstep. }
  rewrite (TimeoutFires_completed opts _ p due' cb') in Hstep by done.
  injection Hstep as <-. unfold slideCount in Hi. cbn in Hi |- *.
  rewrite length_addActive, length_removeActive in Hi.
  assert (Hr' : 0 <= settles_on cb' < Z.of_nat (length (slides (this p)))).
  { rewrite (inv_slides _ _ _ HI). destruct cb'; cbn in *; lia. }
  split; [by apply item_addActive_removeActive|].
  intros ds. destruct (dots (this p)) as [ds0|] eqn:Hds; [|done].
  intros [= <-]. apply item_addActive_removeActive;
    rewrite (inv_dots _ _ _ HI ds0 Hds), <- (inv_slides _ _ _ HI); done.
Qed.

(** X10 (non-animated placement): on a settled carousel with at least one
    slide, [goToSlide(index, false)] with an index other than the current one
    places the resolved slide at once: it becomes [currentSlide] and the
    only active slide (and dot), a displacement carousel moves its track to
    -100% times that index while a fade carousel leaves the track alone,
    and nothing is dispatched or scheduled. *)
Theorem X10_placement_is_immediate opts children (p : Page) (index : Z) :
  children <> [] ->
  reachable opts children p ->
  isTransitioning (this p) = false ->
  index <> currentSlide (this p) ->
  let r := handleLooping (loop opts) (slideCount (this p)) index in
  exists p',
    goToSlide index false p = Normal p' /\
    currentSlide (this p') = r /\
    isTransitioning (this p') = false /\
    (forall i, 0 <= i < slideCount (this p) ->
       item (slides (this p')) i = Some (bool_decide (i = r)) /\
       forall ds, dots (this p') = Some ds ->
                  item ds i = Some (bool_decide (i = r))) /\
    carouselInner (this p') =
      (if fadeEffect opts then carouselInner (this p)
       else Some (translateX (- r * 100))) /\
    timeouts p' = [] /\
    dispatched p' = dispatched p.
Proof.
  intros Hne Hr Htr Hidx r.
  pose proof (reachable_Inv opts children p Hne Hr) as HI.
  assert (Hn : slideCount (this p) = Z.of_nat (length children)).
  { unfold slideCount. by rewrite (inv_slides _ _ _ HI). }
  assert (Hrange : 0 <= r < Z.of_nat (length children)).
  { subst r. rewrite Hn. apply handleLooping_range.
    pose proof (inv_current _ _ _ HI). lia. }
  subst r. rewrite Hn in *.
  rewrite (goToSlide_placed opts (length children)) by done.
  eexists. split; [reflexivity|]. cbn.
  split; [done|]. split; [done|]. split; [|split; [|split]].
  - intros i Hi. split.
    + apply item_addActive_removeActive; by rewrite (inv_slides _ _ _ HI).
    + intros ds. destruct (dots (this p)) as [ds0|] eqn:Hds; [|done].
      intros [= <-]. apply item_addActive_removeActive;
        by rewrite (inv_dots _ _ _ HI ds0 Hds).
  - by rewrite (inv_options _ _ _ HI).
  - pose proof (inv_pending _ _ _ HI) as Hp. by rewrite Htr in Hp.
  - done.
Qed.

(** ** Repeated navigation *)

Lemma prev_settled_spec opts n (p : Page) :
  Inv opts n p ->
  isTransitioning (this p) = false ->
  exists p2,
    prev_settled p = Some p2 /\
    Inv opts n p2 /\
    isTransitioning (this p2) = false /\
    currentSlide (this p2) =
      handleLooping (loop opts) (Z.of_nat n) (currentSlide (this p) - 1).
Proof.
  intros HI Htr.
  destruct (transition_completes opts n p (currentSlide (this p) - 1) HI Htr
              ltac:(lia)) as (p2 & Hrun & HI2 & Htr2 & Hc & _).
  exists p2. split; [|done]. exact Hrun.
Qed.

(** Iterating a settled request whose one step maps the index by [f]. *)
Lemma iter_settled_index opts n (request : Page -> option Page) (f : Z -> Z) :
  (forall p, Inv opts n p -> isTransitioning (this p) = false ->
     exists p2, request p = Some p2 /\ Inv opts n p2 /\
                isTransitioning (this p2) = false /\
                currentSlide (this p2) = f (currentSlide (this p))) ->
  forall k p, Inv opts n p -> isTransitioning (this p) = false ->
    exists q, iter_settled request k p = Some q /\ Inv opts n q /\
              isTransitioning (this q) = false /\
              currentSlide (this q) = Nat.iter k f (currentSlide (this p)).
Proof.
  intros Hstep. induction k as [|k IH]; intros p HI Htr.
  - exists p. done.
  - destruct (Hstep p HI Htr) as (p1 & Hreq & HI1 & Htr1 & Hc1).
    destruct (IH p1 HI1 Htr1) as (q & Hit & HIq & Htrq & Hcq).
    exists q. cbn [iter_settled]. rewrite Hreq.
    split; [done|]. split; [done|]. split; [done|].
    rewrite Hcq, Hc1. symmetry. apply Nat.iter_succ_r.
Qed.

Lemma iter_next_loop (n : Z) (k : nat) (s : Z) :
  0 < n -> 0 <= s < n ->
  Nat.iter k (fun c => handleLooping true n (c + 1)) s
  = (s + Z.of_nat k) `mod` n.
Proof.
  intros Hn. revert s. induction k as [|k IH]; intros s Hs.
  - cbn. rewrite Z.add_0_r. by rewrite Z.mod_small.
  - rewrite Nat.iter_succ, IH by done.
    assert (Hm : 0 <= (s + Z.of_nat k) `mod` n < n) by (apply Z.mod_pos_bound; lia).
    destruct (decide ((s + Z.of_nat k) `mod` n + 1 < n)).
    + rewrite handleLooping_inside by lia.
      replace (s + Z.of_nat (S k)) with ((s + Z.of_nat k) + 1) by lia.
      rewrite <- (Zplus_mod_idemp_l (s + Z.of_nat k) 1 n).
      by rewrite (Z.mod_small ((s + Z.of_nat k) `mod` n + 1)) by lia.
    + rewrite handleLooping_above by lia.
      replace (s + Z.of_nat (S k)) with ((s + Z.of_nat k) + 1) by lia.
      rewrite <- (Zplus_mod_idemp_l (s + Z.of_nat k) 1 n).
      replace ((s + Z.of_nat k) `mod` n + 1) with n by lia.
      by rewrite Z_mod_same_full.
Qed.

Lemma iter_prev_loop (n : Z) (k : nat) (s : Z) :
  0 < n -> 0 <= s < n ->
  Nat.iter k (fun c => handleLooping true n (c - 1)) s
  = (s - Z.of_nat k) `mod` n.
Proof.
  intros Hn. revert s. induction k as [|k IH]; intros s Hs.
  - cbn. rewrite Z.sub_0_r. by rewrite Z.mod_small.
  - rewrite Nat.iter_succ, IH by done.
    assert (Hm : 0 <= (s - Z.of_nat k) `mod` n < n) by (apply Z.mod_pos_bound; lia).
    replace (s - Z.of_nat (S k)) with ((s - Z.of_nat k) - 1) by lia.
    rewrite <- (Zminus_mod_idemp_l (s - Z.of_nat k) 1 n).
    destruct (decide (0 <= (s - Z.of_nat k) `mod` n - 1)).
    + rewrite handleLooping_inside by lia.
      by rewrite (Z.mod_small ((s - Z.of_nat k) `mod` n - 1)) by lia.
    + rewrite handleLooping_below by lia.
      replace ((s - Z.of_nat k) `mod` n - 1) with (n - 1 + (-1) * n) by lia.
      rewrite Z_mod_plus_full. by rewrite Z.mod_small by lia.
Qed.

Lemma iter_next_clamp (n : Z) (k : nat) (s : Z) :
  0 < n -> 0 <= s < n ->
  Nat.iter k (fun c => handleLooping false n (c + 1)) s
  = Z.min (s + Z.of_nat k) (n - 1).
Proof.
  intros Hn. revert s. induction k as [|k IH]; intros s Hs.
  - cbn. lia.
  - rewrite Nat.iter_succ, IH by done.
    destruct (decide (Z.min (s + Z.of_nat k) (n - 1) + 1 < n)).
    + rewrite handleLooping_inside by lia. lia.
    + rewrite handleLooping_above by lia. lia.
Qed.

Lemma iter_prev_clamp (n : Z) (k : nat) (s : Z) :
  0 < n -> 0 <= s < n ->
  Nat.iter k (fun c => handleLooping false n (c - 1)) s
  = Z.max (s - Z.of_nat k) 0.
Proof.
  intros Hn. revert s. induction k as [|k IH]; intros s Hs.
  - cbn. lia.
  - rewrite Nat.iter_succ, IH by done.
    destruct (decide (0 <= Z.max (s - Z.of_nat k) 0 - 1)).
    + rewrite handleLooping_inside by lia. lia.
    + rewrite handleLooping_below by lia. lia.
Qed.

(** X11 (looped navigation is arithmetic modulo the slide count): with
    [loop] enabled, on a settled carousel with at least one slide at index
    [s], [k] settled [next()] calls end settled on [(s + k) mod slideCount]
    and [k] settled [prev()] calls on [(s - k) mod slideCount]. *)
Theorem X11_looped_navigation_is_modular opts children (p : Page) (k : nat) :
  children <> [] ->
  reachable opts children p ->
  loop opts = true ->
  isTransitioning (this p) = false ->
  (exists q,
     iter_settled next_settled k p = Some q /\
     isTransitioning (this q) = false /\
     currentSlide (this q)
     = (currentSlide (this p) + Z.of_nat k) `mod` slideCount (this p)) /\
  (exists q,
     iter_settled prev_settled k p = Some q /\
     isTransitioning (this q) = false /\
     currentSlide (this q)
     = (currentSlide (this p) - Z.of_nat k) `mod` slideCount (this p)).
Proof.
  intros Hne Hr Hloop Htr.
  pose proof (reachable_Inv opts children p Hne Hr) as HI.
  pose proof (inv_current _ _ _ HI) as Hc.
  unfold slideCount. rewrite (inv_slides _ _ _ HI).
  split.
  - destruct (iter_settled_index opts (length children) next_settled
                (fun c => handleLooping (loop opts) (Z.of_nat (length children)) (c + 1))
                (next_settled_spec opts _) k p HI Htr)
      as (q & Hit & _ & Htrq & Hcq).
    exists q. split; [done|]. split; [done|].
    rewrite Hcq, Hloop. apply iter_next_loop; lia.
  - destruct (iter_settled_index opts (length children) prev_settled
                (fun c => handleLooping (loop opts) (Z.of_nat (length children)) (c - 1))
                (prev_settled_spec opts _) k p HI Htr)
      as (q & Hit & _ & Htrq & Hcq).
    exists q. split; [done|]. split; [done|].
    rewrite Hcq, Hloop. apply iter_prev_loop; lia.
Qed.

(** X12 (clamped navigation saturates at the ends): with [loop] disabled,
    on a settled carousel with at least one slide at index [s], [k] settled
    [next()] calls end settled on [min (s + k) (slideCount - 1)] and [k]
    settled [prev()] calls on [max (s - k) 0]: repeated requests never pass
    the last or the first slide. *)
Theorem X12_clamped_navigation_saturates opts children (p : Page) (k : nat) :
  children <> [] ->
  reachable opts children p ->
  loop opts = false ->
  isTransitioning (this p) = false ->
  (exists q,
     iter_settled next_settled k p = Some q /\
     isTransitioning (this q) = false /\
     currentSlide (this q)
     = Z.min (currentSlide (this p) + Z.of_nat k) (slideCount (this p) - 1)) /\
  (exists q,
     iter_settled prev_settled k p = Some q /\
     isTransitioning (this q) = false /\
     currentSlide (this q) = Z.max (currentSlide (this p) - Z.of_nat k) 0).
Proof.
  intros Hne Hr Hloop Htr.
  pose proof (reachable_Inv opts children p Hne Hr) as HI.
  pose proof (inv_current _ _ _ HI) as Hc.
  unfold slideCount. rewrite (inv_slides _ _ _ HI).
  split.
  - destruct (iter_settled_index opts (length children) next_settled
                (fun c => handleLooping (loop opts) (Z.of_nat (length children)) (c + 1))
                (next_settled_spec opts _) k p HI Htr)
      as (q & Hit & _ & Htrq & Hcq).
    exists q. split; [done|]. split; [done|].
    rewrite Hcq, Hloop. apply iter_next_clamp; lia.
  - destruct (iter_settled_index opts (length children) prev_settled
                (fun c => handleLooping (loop opts) (Z.of_nat (length children)) (c - 1))
                (prev_settled_spec opts _) k p HI Htr)
      as (q & Hit & _ & Htrq & Hcq).
    exists q. split; [done|]. split; [done|].
    rewrite Hcq, Hloop. apply iter_prev_clamp; lia.
Qed.

(** ** Composition of requests *)

Lemma run_app ts1 ts2 (p : Page) :
  run (ts1 ++ ts2) p = run ts1 p ≫= run ts2.
Proof.
  revert p. induction ts1 as [|t ts1 IH]; intros p; cbn; [done|].
  destruct (step t p); cbn; [apply IH | done].
Qed.

(** X13 ([prev()] undoes [next()] and conversely): on a settled carousel
    with at least one slide, when [loop] is enabled or the current slide is
    not the last, a settled [next()] followed by a settled [prev()] comes
    back to the starting slide, having dispatched the two pairs of events;
    when [loop] is enabled or the current slide is not the first, the same
    holds for [prev()] followed by [next()]. *)
Theorem X13_prev_undoes_next opts children (p : Page) :
  children <> [] ->
  reachable opts children p ->
  isTransitioning (this p) = false ->
  let s := currentSlide (this p) in
  let n := slideCount (this p) in
  (loop opts = true \/ s + 1 < n ->
   exists q,
     run [Invoke call_nextSlide; Elapse 500; TimeoutFires;
          Invoke call_prevSlide; Elapse 500; TimeoutFires] p = Some q /\
     isTransitioning (this q) = false /\
     currentSlide (this q) = s /\
     dispatched q =
       dispatched p ++ [slideChange s ((s + 1) `mod` n);
                        slideChanged ((s + 1) `mod` n);
                        slideChange ((s + 1) `mod` n) s; slideChanged s]) /\
  (loop opts = true \/ 0 < s ->
   exists q,
     run [Invoke call_prevSlide; Elapse 500; TimeoutFires;
          Invoke call_nextSlide; Elapse 500; TimeoutFires] p = Some q /\
     isTransitioning (this q) = false /\
     currentSlide (this q) = s /\
     dispatched q =
       dispatched p ++ [slideChange s ((s - 1) `mod` n);
                        slideChanged ((s - 1) `mod` n);
                        slideChange ((s - 1) `mod` n) s; slideChanged s]).
Proof.
  intros Hne Hr Htr s n.
  pose proof (reachable_Inv opts children p Hne Hr) as HI.
  pose proof (inv_current _ _ _ HI) as Hc. fold s in Hc.
  assert (Hn : n = Z.of_nat (length children)).
  { subst n. unfold slideCount. by rewrite (inv_slides _ _ _ HI). }
  rewrite Hn.
  split; intros Hmove.
  - destruct (transition_completes opts _ p (s + 1) HI Htr ltac:(lia))
      as (p1 & Hrun1 & HI1 & Htr1 & Hc1 & Hd1).
    assert (Hs' : handleLooping (loop opts) (Z.of_nat (length children)) (s + 1)
                  = (s + 1) `mod` Z.of_nat (length children)).
    { destruct (decide (s + 1 < Z.of_nat (length children))).
      - rewrite handleLooping_inside by lia. by rewrite Z.mod_small by lia.
      - destruct Hmove as [Hloop|]; [|lia].
        rewrite handleLooping_above, Hloop by lia.
        replace (s + 1) with (Z.of_nat (length children)) by lia.
        by rewrite Z_mod_same_full. }
    rewrite Hs' in *.
    set (s' := (s + 1) `mod` Z.of_nat (length children)) in *.
    assert (Hback : handleLooping (loop opts) (Z.of_nat (length children))
                      (s' - 1) = s).
    { subst s'. destruct (decide (s + 1 < Z.of_nat (length children))).
      - rewrite Z.mod_small by lia. rewrite handleLooping_inside; lia.
      - destruct Hmove as [Hloop|]; [|lia].
        replace (s + 1) with (Z.of_nat (length children)) by lia.
        rewrite Z_mod_same_full, handleLooping_below, Hloop by lia. lia. }
    destruct (transition_completes opts _ p1 (currentSlide (this p1) - 1)
                HI1 Htr1 ltac:(lia))
      as (q & Hrun2 & _ & Htr2 & Hc2 & Hd2).
    rewrite Hc1, Hback in *.
    exists q. split.
    { change (run ?l p) with
        (run ([Invoke call_nextSlide; Elapse 500; TimeoutFires]
              ++ [Invoke call_prevSlide; Elapse 500; TimeoutFires]) p).
      rewrite run_app.
      change (run [Invoke call_nextSlide; Elapse 500; TimeoutFires] p)
        with (run [Invoke (call_goToSlide (s + 1) true); Elapse 500;
                   TimeoutFires] p).
      rewrite Hrun1. cbn [mbind option_bind]. rewrite <- Hc1 in Hrun2.
      exact Hrun2. }
    split; [done|]. split; [done|].
    rewrite Hd2, Hd1, <- app_assoc. done.
  - destruct (transition_completes opts _ p (s - 1) HI Htr ltac:(lia))
      as (p1 & Hrun1 & HI1 & Htr1 & Hc1 & Hd1).
    assert (Hs' : handleLooping (loop opts) (Z.of_nat (length children)) (s - 1)
                  = (s - 1) `mod` Z.of_nat (length children)).
    { destruct (decide (0 <= s - 1)).
      - rewrite handleLooping_inside by lia. by rewrite Z.mod_small by lia.
      - destruct Hmove as [Hloop|]; [|lia].
        rewrite handleLooping_below, Hloop by lia.
        replace (s - 1) with (Z.of_nat (length children) - 1
                              + (-1) * Z.of_nat (length children)) by lia.
        rewrite Z_mod_plus_full. by rewrite Z.mod_small by lia. }
    rewrite Hs' in *.
    set (s' := (s - 1) `mod` Z.of_nat (length children)) in *.
    assert (Hback : handleLooping (loop opts) (Z.of_nat (length children))
                      (s' + 1) = s).
    { subst s'. destruct (decide (0 <= s - 1)).
      - rewrite Z.mod_small by lia. rewrite handleLooping_inside; lia.
      - destruct Hmove as [Hloop|]; [|lia].
        replace (s - 1) with (Z.of_nat (length children) - 1
                              + (-1) * Z.of_nat (length children)) by lia.
        rewrite Z_mod_plus_full, Z.mod_small by lia.
        rewrite handleLooping_above, Hloop by lia. lia. }
    destruct (transition_completes opts _ p1 (currentSlide (this p1) + 1)
                HI1 Htr1 ltac:(lia))
      as (q & Hrun2 & _ & Htr2 & Hc2 & Hd2).
    rewrite Hc1, Hback in *.
    exists q. split.
    { change (run ?l p) with
        (run ([Invoke call_prevSlide; Elapse 500; TimeoutFires]
              ++ [Invoke call_nextSlide; Elapse 500; TimeoutFires]) p).
      rewrite run_app.
      change (run [Invoke call_prevSlide; Elapse 500; TimeoutFires] p)
        with (run [Invoke (call_goToSlide (s - 1) true); Elapse 500;
                   TimeoutFires] p).
      rewrite Hrun1. cbn [mbind option_bind]. rewrite <- Hc1 in Hrun2.
      exact Hrun2. }
    split; [done|]. split; [done|].
    rewrite Hd2, Hd1, <- app_assoc. done.
Qed.

(** ** Clicks on a dot *)









(** ** Gestures: a release is handled once *)

(** Navigation and autoplay methods never touch the gesture variables or
    the options, whichever way they complete. *)
Lemma goToSlide_keeps_vars index animate (p : Page) :
  vars (outcome (goToSlide index animate p)) = vars p /\
  options (this (outcome (goToSlide index animate p))) = options (this p).
Proof.
  unfold goToSlide, setSlide, fadeToSlide, slideToSlide.
  repeat (case_match; cbn; try done).
Qed.

Lemma startAutoplay_keeps_vars (p : Page) :
  vars (outcome (startAutoplay p)) = vars p /\
  options (this (outcome (startAutoplay p))) = options (this p).
Proof.
  destruct (autoplay (options (this p))) eqn:Ha; cycle 1.
  { rewrite startAutoplay_inert; [done | by left]. }
  destruct (decide (slideCount (this p) <= 1)).
  { rewrite startAutoplay_inert; [done | by right]. }
  rewrite startAutoplay_eq; [done | done | lia].
Qed.

Lemma handleMouseUp_releases (p : Page) :
  isMouseDown (vars (outcome (handleMouseUp p))) = false /\
  options (this (outcome (handleMouseUp p))) = options (this p).
Proof.
  unfold handleMouseUp. destruct (isMouseDown (vars p)) eqn:Hdown; [|done].
  cbn [negb]. unfold nextSlide, prevSlide.
  repeat case_match;
    try (destruct (goToSlide_keeps_vars
                     (currentSlide (this (set_vars
                        (mkSwipeVars (startX (vars p)) (startY (vars p))
                           (endX (vars p)) (endY (vars p))
                           (isDragging (vars p)) false) p)) - 1) true
                     (set_vars
                        (mkSwipeVars (startX (vars p)) (startY (vars p))
                           (endX (vars p)) (endY (vars p))
                           (isDragging (vars p)) false) p)) as [-> ->]);
    try (destruct (goToSlide_keeps_vars
                     (currentSlide (this (set_vars
                        (mkSwipeVars (startX (vars p)) (startY (vars p))
                           (endX (vars p)) (endY (vars p))
                           (isDragging (vars p)) false) p)) + 1) true
                     (set_vars
                        (mkSwipeVars (startX (vars p)) (startY (vars p))
                           (endX (vars p)) (endY (vars p))
                           (isDragging (vars p)) false) p)) as [-> ->]);
    done.
Qed.

Lemma handleTouchEnd_releases (p : Page) :
  isDragging (vars (outcome (handleTouchEnd p))) = false /\
  options (this (outcome (handleTouchEnd p))) = options (this p).
Proof.
  unfold handleTouchEnd. destruct (isDragging (vars p)) eqn:Hdrag; [|done].
  cbn [negb].
  set (p1 := set_vars _ p).
  assert (Hnav : forall c : Completion,
    isDragging (vars (outcome c)) = false ->
    options (this (outcome c)) = options (this p) ->
    isDragging (vars (outcome (c >>- fun p2 =>
      if isPlaying (this p2) then startAutoplay p2 else Normal p2))) = false /\
    options (this (outcome (c >>- fun p2 =>
      if isPlaying (this p2) then startAutoplay p2 else Normal p2)))
    = options (this p)).
  { intros [q|q] Hq Ho; cbn in *; [|done].
    destruct (isPlaying (this q)); [|done].
    destruct (startAutoplay_keeps_vars q) as [-> ->]. done. }
  unfold nextSlide, prevSlide.
  repeat case_match; apply Hnav; try done;
    match goal with
    | |- context [goToSlide ?i true p1] =>
      destruct (goToSlide_keeps_vars i true p1) as [Hv Ho'];
      rewrite ?Hv, ?Ho'; subst p1; done
    end.
Qed.

(** X15 (a release is handled once, and leaving cancels a mouse drag): in
    any state, a second [mouseup] right after a [mouseup], and a second
    [touchend] right after a [touchend], change nothing -- the first one
    consumed the gesture -- and a [mouseup] that follows a [mouseleave]
    changes nothing either: leaving the carousel cancels the drag in
    progress, so no navigation is committed. *)
Theorem X15_release_handled_once (p : Page) :
  listen mouseup (listen mouseup p) = listen mouseup p /\
  listen touchend (listen touchend p) = listen touchend p /\
  listen mouseup (listen mouseleave p) = listen mouseleave p.
Proof.
  split; [|split].
  - cbn [listen]. destruct (swipe (options (this p))) eqn:Hs; [|by rewrite Hs].
    destruct (handleMouseUp_releases p) as [Hdown Ho].
    rewrite Ho, Hs. unfold handleMouseUp at 1. by rewrite Hdown.
  - cbn [listen]. destruct (swipe (options (this p))) eqn:Hs; [|by rewrite Hs].
    destruct (handleTouchEnd_releases p) as [Hdrag Ho].
    rewrite Ho, Hs. unfold handleTouchEnd at 1. by rewrite Hdrag.
  - cbn [listen].
    set (p1 := if pauseOnHover (options (this p))
               then outcome (handleMouseLeave p) else p).
    assert (Ho : options (this p1) = options (this p)).
    { subst p1. destruct (pauseOnHover (options (this p))); [|done].
      unfold handleMouseLeave. destruct (isPlaying (this p)); [|done].
      by destruct (startAutoplay_keeps_vars p) as [_ ->]. }
    destruct (swipe (options (this p))) eqn:Hs.
    + unfold handleMouseLeaveSwipe, handleMouseUp. cbn. by rewrite Ho, Hs.
    + by rewrite Ho, Hs.
Qed.

(** ** Disposal *)

Lemma item_removeActive arr (i : Z) :
  0 <= i < Z.of_nat (length arr) -> item (removeActive arr) i = Some false.
Proof.
  intros Hi. unfold item, removeActive. rewrite decide_True by lia.
  rewrite list_lookup_fmap.
  destruct (lookup_lt_is_Some_2 arr (Z.to_nat i)) as [b ->]; [lia|]. done.
Qed.

Lemma removeActive_idemp arr : removeActive (removeActive arr) = removeActive arr.
Proof. unfold removeActive. by rewrite <- list_fmap_compose. Qed.

Lemma destroyed_idemp (p : Page) : destroyed (destroyed p) = destroyed p.
Proof.
  unfold destroyed, paused. cbn. rewrite removeActive_idemp.
  by destruct (playPauseBtn (this p)).
Qed.

(** X16 ([destroy] pauses but does not retire the carousel): on a carousel
    with at least one slide, [destroy] completes normally, cancels the
    autoplay interval, removes the active mark from every slide and leaves
    the navigation state and [isPlaying] as they were; calling it again
    changes nothing.  It removes no listener, so when [isPlaying] is true,
    autoplay is enabled and there is more than one slide, the page becoming
    visible again re-arms the interval of the destroyed carousel. *)
Theorem X16_destroy_pauses_without_retiring opts children (p : Page) :
  children <> [] ->
  reachable opts children p ->
  exists q,
    destroy p = Normal q /\
    autoplayTimer (this q) = None /\
    (forall i, 0 <= i < slideCount (this p) ->
               item (slides (this q)) i = Some false) /\
    nav_state q = nav_state p /\
    isPlaying (this q) = isPlaying (this p) /\
    destroy q = Normal q /\
    (isPlaying (this p) = true -> autoplay opts = true ->
     1 < slideCount (this p) ->
     exists q',
       run [Event (visibilitychange false)] q = Some q' /\
       is_Some (autoplayTimer (this q'))).
Proof.
  intros Hne Hr.
  pose proof (reachable_Inv opts children p Hne Hr) as HI.
  destruct (destroy_Inv opts _ p HI) as (q & Hq & HIq).
  pose proof Hq as Hq'.
  rewrite (destroy_destroyed opts (length children)) in Hq' by done.
  injection Hq' as <-.
  exists (destroyed p). split; [done|]. split; [done|].
  split; [|split; [done|split; [done|split]]].
  - intros i Hi. by apply item_removeActive.
  - rewrite (destroy_destroyed opts (length children)) by done.
    by rewrite destroyed_idemp.
  - intros Hplay Ha Hn. cbn [run step listen handleVisibilityChange].
    cbn [destroyed paused on_this this isPlaying set_slides].
    rewrite Hplay. rewrite startAutoplay_eq.
    + eexists. split; [reflexivity|]. cbn. eauto.
    + cbn. by rewrite (inv_options _ _ _ HI).
    + unfold slideCount in *. cbn. by rewrite length_removeActive.
Qed.

(** ** Autoplay *)

Lemma startAutoplay_cases (p : Page) :
  startAutoplay p
  = Normal (if autoplay (options (this p)) && (1 <? slideCount (this p))
            then armed p else p).
Proof.
  destruct (autoplay (options (this p))) eqn:Ha; cycle 1.
  { rewrite startAutoplay_inert; [done | by left]. }
  destruct (Z.ltb_spec 1 (slideCount (this p))).
  - by rewrite startAutoplay_eq.
  - rewrite startAutoplay_inert; [done | right; lia].
Qed.

Lemma toggleAutoplay_cases (p : Page) :
  toggleAutoplay p
  = Normal (if isPlaying (this p)
            then paused (on_this (set_isPlaying false) p)
            else if autoplay (options (this p)) && (1 <? slideCount (this p))
                 then armed (on_this (set_isPlaying true) p)
                 else on_this (set_isPlaying true) p).
Proof.
  unfold toggleAutoplay. destruct (isPlaying (this p)).
  - apply pauseAutoplay_eq.
  - by rewrite startAutoplay_cases.
Qed.

(** X17 (toggling twice): from any state, two [toggleAutoplay] calls in a
    row complete normally, restore [isPlaying], leave the navigation state
    untouched, and end with the interval armed exactly when [isPlaying] is
    true, autoplay is enabled in the options and there is more than one
    slide -- whether or not the interval was armed before. *)
Theorem X17_toggle_twice (p : Page) :
  exists q1 q,
    toggleAutoplay p = Normal q1 /\
    toggleAutoplay q1 = Normal q /\
    run [Invoke call_toggleAutoplay; Invoke call_toggleAutoplay] p = Some q /\
    isPlaying (this q) = isPlaying (this p) /\
    nav_state q = nav_state p /\
    (is_Some (autoplayTimer (this q)) <->
     isPlaying (this p) = true /\ autoplay (options (this p)) = true /\
     1 < slideCount (this p)).
Proof.
  exists (outcome (toggleAutoplay p)),
    (outcome (toggleAutoplay (outcome (toggleAutoplay p)))).
  split; [by rewrite (toggleAutoplay_cases p)|].
  split; [by rewrite (toggleAutoplay_cases (outcome (toggleAutoplay p)))|].
  split; [reflexivity|].
  rewrite (toggleAutoplay_cases p). cbn [outcome].
  rewrite toggleAutoplay_cases. cbn [outcome].
  unfold slideCount.
  destruct (isPlaying (this p)) eqn:Hplay;
    destruct (autoplay (options (this p))) eqn:Ha;
    destruct (Z.ltb_spec 1 (Z.of_nat (length (slides (this p))))) as [Hn|Hn];
    cbn; rewrite ?Ha; cbn;
    try (destruct (Z.ltb_spec 1 (Z.of_nat (length (slides (this p)))));
         [|lia]);
    try (destruct (Z.ltb_spec 1 (Z.of_nat (length (slides (this p)))));
         [lia|]);
    cbn;
    (split; [done|]); (split; [done|]);
    (split;
     [ intros [? ?]; first [done | repeat split; first [done | lia]]
     | intros (? & ? & ?); first [done | lia | eauto] ]).
Qed.

(** X18 (an autoplay tick is a [next()] call): on a carousel with at least
    one slide whose interval is armed, the tick cannot run before the
    interval is due; when it runs, it has on the navigation state exactly
    the effect of a [next()] call made at that moment -- dropped during a
    transition, a transition to the resolved successor otherwise -- and the
    interval stays armed, [isPlaying] unchanged. *)
Theorem X18_tick_is_next opts children (p : Page) (due : Z) :
  children <> [] ->
  reachable opts children p ->
  autoplayTimer (this p) = Some due ->
  (now p < due -> step IntervalFires p = None) /\
  (due <= now p ->
   exists p',
     step IntervalFires p = Some p' /\
     nav_state p' = nav_state (outcome (nextSlide p)) /\
     is_Some (autoplayTimer (this p')) /\
     isPlaying (this p') = isPlaying (this p)).
Proof.
  intros Hne Hr Ht.
  pose proof (reachable_Inv opts children p Hne Hr) as HI.
  split.
  - intros Hlt. unfold step. rewrite Ht. by rewrite decide_False by lia.
  - intros Hdue. unfold step. rewrite Ht, decide_True by done.
    eexists. split; [reflexivity|].
    set (p2 := setInterval (autoplayDelay (options (this p))) p).
    assert (HI2 : Inv opts (length children) p2).
    { destruct HI. constructor; cbn; eauto. }
    unfold nextSlide.
    destruct (isTransitioning (this p)) eqn:Htr.
    + rewrite (goToSlide_in_flight _ _ p2) by done.
      rewrite (goToSlide_in_flight _ _ p) by done.
      cbn. eauto.
    + rewrite (goToSlide_started opts (length children) p2) by (done || cbn; lia).
      rewrite (goToSlide_started opts (length children) p) by (done || lia).
      cbn. eauto.
Qed.

(** ** Touch and mouse presses *)

Lemma goToSlide_keeps_autoplay opts n (p : Page) index :
  Inv opts n p ->
  exists p',
    goToSlide index true p = Normal p' /\ Inv opts n p' /\
    isPlaying (this p') = isPlaying (this p) /\
    autoplayTimer (this p') = autoplayTimer (this p).
Proof.
  intros HI.
  destruct (isTransitioning (this p)) eqn:Htr.
  { exists p. split; [by apply goToSlide_in_flight | done]. }
  destruct (decide (index = currentSlide (this p))) as [He|Hne].
  { exists p. split; [apply goToSlide_dropped; by right | done]. }
  destruct (goToSlide_starts opts n index p HI Htr Hne)
    as (p' & cb & Hgo & HI' & _ & _ & _ & _ & _ & _ & _ & Hpl & Ht).
  eauto.
Qed.

Lemma handleTouchEnd_autoplay opts n (p : Page) :
  Inv opts n p ->
  autoplayTimer (this p) = None ->
  exists q,
    handleTouchEnd p = Normal q /\
    isPlaying (this q) = isPlaying (this p) /\
    (is_Some (autoplayTimer (this q)) <->
     isDragging (vars p) = true /\ isPlaying (this p) = true /\
     autoplay opts = true /\ (1 < n)%nat).
Proof.
  intros HI Ht. unfold handleTouchEnd.
  destruct (isDragging (vars p)) eqn:Hdrag; cbn [negb]; cycle 1.
  { exists p. split; [done|]. split; [done|]. rewrite Ht.
    split; [by intros [? [=]] | by intros ([=] & _)]. }
  set (p1 := set_vars _ p).
  assert (HI1 : Inv opts n p1) by (by apply Inv_set_vars).
  assert (Hnav : forall (b1 b2 : bool), exists p2,
    (if b1 then if b2 then prevSlide p1 else nextSlide p1 else Normal p1)
    = Normal p2 /\
    Inv opts n p2 /\ isPlaying (this p2) = isPlaying (this p) /\
    autoplayTimer (this p2) = None).
  { intros b1 b2. unfold nextSlide, prevSlide.
    destruct b1; [|by exists p1].
    destruct b2.
    - destruct (goToSlide_keeps_autoplay opts n p1
                  (currentSlide (this p1) - 1) HI1)
        as (p2 & -> & HI2 & Hpl & Htm).
      exists p2. by rewrite Hpl, Htm.
    - destruct (goToSlide_keeps_autoplay opts n p1
                  (currentSlide (this p1) + 1) HI1)
        as (p2 & -> & HI2 & Hpl & Htm).
      exists p2. by rewrite Hpl, Htm. }
  match goal with
  | |- context [if ?b1 then if ?b2 then prevSlide p1 else nextSlide p1
                else Normal p1] =>
    destruct (Hnav b1 b2) as (p2 & -> & HI2 & Hpl2 & Ht2)
  end.
  cbn [andThen]. rewrite Hpl2.
  destruct (isPlaying (this p)) eqn:Hplay; cycle 1.
  { exists p2. split; [done|]. split; [done|]. rewrite Ht2.
    split; [by intros [? [=]] | by intros (_ & [=] & _)]. }
  rewrite startAutoplay_cases. eexists. split; [reflexivity|].
  rewrite (inv_options _ _ _ HI2). unfold slideCount.
  rewrite (inv_slides _ _ _ HI2).
  destruct (autoplay opts) eqn:Ha;
    destruct (Z.ltb_spec 1 (Z.of_nat n)); cbn;
    (split; [done|]); rewrite ?Ht2;
    (split;
     [ intros [? ?]; first [done | repeat split; first [done | lia]]
     | intros (? & ? & ? & ?); first [done | lia | eauto] ]).
Qed.

(** X19 (a touch gesture suspends autoplay, a mouse drag does not): on a
    carousel with at least one slide and swipe enabled, a touch press
    cancels the autoplay interval without changing [isPlaying], whereas a
    mouse press leaves the interval as it is; and once the touch sequence
    press, move, release is over, the interval is armed exactly when
    [isPlaying] is true, autoplay is enabled and there is more than one
    slide, whether or not the release navigated. *)
Theorem X19_touch_suspends_autoplay
    opts children (p : Page) (x y x' y' : Z) :
  children <> [] ->
  reachable opts children p ->
  swipe opts = true ->
  (autoplayTimer (this (listen (touchstart x y) p)) = None /\
   isPlaying (this (listen (touchstart x y) p)) = isPlaying (this p)) /\
  autoplayTimer (this (listen (mousedown x y) p)) = autoplayTimer (this p) /\
  exists q,
    run [Event (touchstart x y); Event (touchmove x' y'); Event touchend] p
      = Some q /\
    isPlaying (this q) = isPlaying (this p) /\
    (is_Some (autoplayTimer (this q)) <->
     isPlaying (this p) = true /\ autoplay opts = true /\
     1 < slideCount (this p)).
Proof.
  intros Hne Hr Hswipe.
  pose proof (reachable_Inv opts children p Hne Hr) as HI.
  pose proof (inv_options _ _ _ HI) as Ho.
  assert (Hcount : slideCount (this p) = Z.of_nat (length children)).
  { unfold slideCount. by rewrite (inv_slides _ _ _ HI). }
  assert (Ha : listen (touchstart x y) p
               = paused (set_vars (mkSwipeVars x y (endX (vars p))
                                     (endY (vars p)) true
                                     (isMouseDown (vars p))) p)).
  { cbn [listen]. rewrite Ho, Hswipe. unfold handleTouchStart.
    by rewrite pauseAutoplay_eq. }
  split; [by rewrite Ha|]. split.
  { cbn [listen]. by rewrite Ho, Hswipe. }
  set (pa := listen (touchstart x y) p) in *.
  set (pb := listen (touchmove x' y') pa).
  exists (listen touchend pb). split; [reflexivity|].
  assert (HIa : Inv opts (length children) pa) by (by apply listen_Inv).
  assert (HIb : Inv opts (length children) pb) by (by apply listen_Inv).
  assert (Hb : this pb = this pa /\ isDragging (vars pb) = true).
  { subst pb. cbn [listen]. rewrite (inv_options _ _ _ HIa), Hswipe.
    unfold handleTouchMove. rewrite Ha. cbn. done. }
  destruct Hb as [Hthis Hdrag].
  destruct (handleTouchEnd_autoplay opts _ pb HIb) as (q & Hq & Hpl & Ht).
  { rewrite Hthis, Ha. done. }
  cbn [listen]. rewrite (inv_options _ _ _ HIb), Hswipe, Hq. cbn [outcome].
  rewrite Hpl, Hthis, Ha. split; [done|].
  rewrite Ht, Hdrag, Hthis, Ha, Hcount. cbn. split.
  - intros (_ & ? & ? & ?). repeat split; try done. lia.
  - intros (? & ? & ?). repeat split; try done. lia.
Qed.

(** ** Auto-initialisation *)

(** X20 (auto-initialisation and the constructor's defaults): whatever
    [parseInt] returns, the options built from an element without [data-*]
    attributes are exactly the constructor's fallback defaults; the autoplay
    delay built from any attributes is never 0 (a missing, unparsable or
    zero [data-autoplay-delay] gives 5000); and a carousel auto-initialised
    without attributes on more than one panel is playing, its interval due
    5000 ms after construction. *)
Theorem X20_auto_init_defaults (parseInt : string -> option Z) :
  datasetOptions parseInt noAttributes = defaultOptions /\
  (forall d, autoplayDelay (datasetOptions parseInt d) <> 0) /\
  (forall children t0,
     (1 < length children)%nat ->
     exists p,
       autoInit parseInt noAttributes children t0 = Normal p /\
       isPlaying (this p) = true /\
       autoplayTimer (this p) = Some (t0 + 5000)).
Proof.
  split; [done|]. split.
  - intros d. cbn. unfold orDefault.
    destruct (parseIntAttr parseInt (data_autoplayDelay d)) as [v|]; [|done].
    destruct (Z.eqb_spec v 0); [done | lia].
  - intros children t0 Hn. unfold autoInit.
    change (datasetOptions parseInt noAttributes) with defaultOptions.
    rewrite construct_eq. eexists. split; [reflexivity|].
    cbn [constructed this isPlaying autoplayTimer defaultOptions autoplay
         autoplayDelay].
    assert (Hk : (1 <? Z.of_nat (length children)) = true)
      by (apply Z.ltb_lt; lia).
    by rewrite Hk.
Qed.

(** * The further properties on the concrete carousels *)

Lemma three_slides_moving_reachable :
  reachable defaultOptions [false; false; false] three_slides_moving.
Proof.
  apply (reachable_run defaultOptions [false; false; false]
           [Invoke call_nextSlide; Elapse 500] three_slides).
  - apply reachable_constructed.
  - vm_compute. reflexivity.
Qed.

Lemma three_slides_nonempty : [false; false; false] <> ([] : list bool).
Proof. discriminate. Qed.

Lemma two_slides_nonempty : [false; false] <> ([] : list bool).
Proof. discriminate. Qed.

Lemma X1_on_three_slides :
  is_Some (autoplayTimer (this three_slides)) /\
  isPlaying (this three_slides) = true /\ autoplay defaultOptions = true /\
  1 < slideCount (this three_slides).
Proof.
  assert (H : is_Some (autoplayTimer (this three_slides))) by (by eexists).
  split; [done|].
  exact (X1_armed_interval_means_playing defaultOptions [false; false; false]
           three_slides three_slides_nonempty (reachable_constructed _ _ _) H).
Defined.

Lemma X2_on_three_slides :
  playPauseBtn (this three_slides) = Some fa_pause /\
  (fa_pause = fa_pause <-> is_Some (autoplayTimer (this three_slides))).
Proof.
  split; [reflexivity|].
  exact (X2_pause_icon_iff_armed defaultOptions [false; false; false]
           three_slides fa_pause three_slides_nonempty
           (reachable_constructed _ _ _) eq_refl).
Defined.

Lemma X3_on_three_slides_at_1 :
  reachable defaultOptions [false; false; false] three_slides_at_1 /\
  arrowButtons (this three_slides_at_1) = true /\
  is_Some (dots (this three_slides_at_1)) /\
  is_Some (playPauseBtn (this three_slides_at_1)).
Proof.
  split; [apply three_slides_at_1_reachable|].
  destruct (X3_controls_follow_options defaultOptions [false; false; false]
              three_slides_at_1 three_slides_nonempty
              three_slides_at_1_reachable) as (Ha & Hd & _ & Hb).
  split; [exact Ha|]. split; [by apply Hd | by apply Hb].
Defined.

Lemma X4_on_three_slides_moving :
  reachable defaultOptions [false; false; false] three_slides_moving /\
  shown three_slides_moving = 1 /\
  (carouselInner (this three_slides_moving) = Some (translateX (- 1 * 100)) \/
   (carouselInner (this three_slides_moving) = Some transform_unset /\
    shown three_slides_moving = 0)).
Proof.
  split; [apply three_slides_moving_reachable|]. split; [reflexivity|].
  destruct (X4_track_offset_agrees defaultOptions [false; false; false]
              three_slides_moving three_slides_nonempty
              three_slides_moving_reachable) as (_ & Hd & _).
  exact (Hd eq_refl).
Defined.

Lemma X5_on_three_slides_moving :
  reachable defaultOptions [false; false; false] three_slides_moving /\
  isTransitioning (this three_slides_moving) = true /\
  exists log from due cb,
    paired log /\
    dispatched three_slides_moving = log ++ [slideChange from (settles_on cb)] /\
    timeouts three_slides_moving = [(due, cb)].
Proof.
  split; [apply three_slides_moving_reachable|]. split; [reflexivity|].
  destruct (X5_notifications_paired defaultOptions [false; false; false]
              three_slides_moving three_slides_nonempty
              three_slides_moving_reachable) as [_ Hin].
  exact (Hin eq_refl).
Defined.

Lemma X6_on_three_slides_at_1 :
  reachable defaultOptions [false; false; false] three_slides_at_1 /\
  forall c, exists p', invoke c three_slides_at_1 = Normal p'.
Proof.
  split; [apply three_slides_at_1_reachable|].
  destruct (X6_no_exception_with_slides defaultOptions [false; false; false]
              three_slides_at_1 three_slides_nonempty
              three_slides_at_1_reachable) as [Hinv _].
  exact Hinv.
Defined.

Lemma X7_on_default_options :
  exists q to_,
    nextSlide (constructed defaultOptions [] 0) = TypeError q /\
    isTransitioning (this q) = true /\
    timeouts q = [] /\
    dispatched q = [slideChange 0 to_] /\
    forall ts q',
      run ts q = Some q' ->
      isTransitioning (this q') = true /\
      currentSlide (this q') = 0 /\
      dispatched q' = [slideChange 0 to_].
Proof.
  exact (X7_empty_carousel_wedges defaultOptions 0 nextSlide
           (or_introl eq_refl)).
Defined.

Lemma X8_on_three_slides_moving :
  reachable defaultOptions [false; false; false] three_slides_moving /\
  ((isTransitioning (this three_slides_moving) = false /\
    timeouts three_slides_moving = []) \/
   (isTransitioning (this three_slides_moving) = true /\
    exists due cb,
      timeouts three_slides_moving = [(due, cb)] /\
      0 <= settles_on cb < slideCount (this three_slides_moving))).
Proof.
  split; [apply three_slides_moving_reachable|].
  exact (X8_one_pending_completion defaultOptions [false; false; false]
           three_slides_moving three_slides_nonempty
           three_slides_moving_reachable).
Defined.

Lemma X9_on_three_slides_moving :
  step TimeoutFires three_slides_moving = Some three_slides_at_1 /\
  forall i, 0 <= i < slideCount (this three_slides_at_1) ->
    item (slides (this three_slides_at_1)) i
    = Some (bool_decide (i = currentSlide (this three_slides_at_1))) /\
    forall ds, dots (this three_slides_at_1) = Some ds ->
      item ds i = Some (bool_decide (i = currentSlide (this three_slides_at_1))).
Proof.
  assert (H : step TimeoutFires three_slides_moving = Some three_slides_at_1)
    by (vm_compute; reflexivity).
  split; [exact H|].
  exact (X9_completion_marks_one_slide defaultOptions [false; false; false]
           three_slides_moving three_slides_at_1 three_slides_nonempty
           three_slides_moving_reachable H).
Defined.

Lemma X10_on_three_slides_at_1 :
  isTransitioning (this three_slides_at_1) = false /\
  5 <> currentSlide (this three_slides_at_1) /\
  exists p',
    goToSlide 5 false three_slides_at_1 = Normal p' /\
    currentSlide (this p') = 0 /\
    isTransitioning (this p') = false.
Proof.
  assert (H : 5 <> currentSlide (this three_slides_at_1)) by discriminate.
  split; [reflexivity|]. split; [exact H|].
  destruct (X10_placement_is_immediate defaultOptions [false; false; false]
              three_slides_at_1 5 three_slides_nonempty
              three_slides_at_1_reachable eq_refl H)
    as (p' & Hgo & Hc & Htr & _).
  exists p'. split; [exact Hgo|]. split; [exact Hc | exact Htr].
Defined.

Lemma X11_on_three_slides :
  loop defaultOptions = true /\
  isTransitioning (this three_slides) = false /\
  exists q,
    iter_settled next_settled 4 three_slides = Some q /\
    isTransitioning (this q) = false /\
    currentSlide (this q) = 1.
Proof.
  split; [reflexivity|]. split; [reflexivity|].
  destruct (X11_looped_navigation_is_modular defaultOptions
              [false; false; false] three_slides 4 three_slides_nonempty
              (reachable_constructed _ _ _) eq_refl eq_refl) as [Hnext _].
  exact Hnext.
Defined.

Lemma X12_on_two_slides_at_last :
  loop clampOptions = false /\
  isTransitioning (this two_slides_at_last) = false /\
  exists q,
    iter_settled next_settled 3 two_slides_at_last = Some q /\
    isTransitioning (this q) = false /\
    currentSlide (this q) = 1.
Proof.
  split; [reflexivity|]. split; [reflexivity|].
  destruct (X12_clamped_navigation_saturates clampOptions [false; false]
              two_slides_at_last 3 two_slides_nonempty
              two_slides_at_last_reachable eq_refl eq_refl) as [Hnext _].
  exact Hnext.
Defined.

Lemma X13_on_three_slides_at_1 :
  isTransitioning (this three_slides_at_1) = false /\
  exists q,
    run [Invoke call_nextSlide; Elapse 500; TimeoutFires;
         Invoke call_prevSlide; Elapse 500; TimeoutFires] three_slides_at_1
      = Some q /\
    isTransitioning (this q) = false /\
    currentSlide (this q) = 1 /\
    dispatched q =
      dispatched three_slides_at_1
      ++ [slideChange 1 2; slideChanged 2; slideChange 2 1; slideChanged 1].
Proof.
  split; [reflexivity|].
  destruct (X13_prev_undoes_next defaultOptions [false; false; false]
              three_slides_at_1 three_slides_nonempty
              three_slides_at_1_reachable eq_refl) as [Hnp _].
  exact (Hnp (or_introl eq_refl)).
Defined.


Lemma X16_on_three_slides_at_1 :
  reachable defaultOptions [false; false; false] three_slides_at_1 /\
  exists q,
    destroy three_slides_at_1 = Normal q /\
    autoplayTimer (this q) = None /\
    (forall i, 0 <= i < slideCount (this three_slides_at_1) ->
               item (slides (this q)) i = Some false) /\
    nav_state q = nav_state three_slides_at_1 /\
    isPlaying (this q) = isPlaying (this three_slides_at_1) /\
    destroy q = Normal q /\
    (isPlaying (this three_slides_at_1) = true ->
     autoplay defaultOptions = true ->
     1 < slideCount (this three_slides_at_1) ->
     exists q',
       run [Event (visibilitychange false)] q = Some q' /\
       is_Some (autoplayTimer (this q'))).
Proof.
  split; [apply three_slides_at_1_reachable|].
  exact (X16_destroy_pauses_without_retiring defaultOptions
           [false; false; false] three_slides_at_1 three_slides_nonempty
           three_slides_at_1_reachable).
Defined.

Lemma three_slides_due_reachable :
  reachable defaultOptions [false; false; false] three_slides_due.
Proof.
  apply (reachable_run defaultOptions [false; false; false]
           [Elapse 5000] three_slides).
  - apply reachable_constructed.
  - vm_compute. reflexivity.
Qed.

Lemma X18_on_three_slides_due :
  autoplayTimer (this three_slides_due) = Some 5000 /\
  5000 <= now three_slides_due /\
  exists p',
    step IntervalFires three_slides_due = Some p' /\
    nav_state p' = nav_state (outcome (nextSlide three_slides_due)) /\
    is_Some (autoplayTimer (this p')) /\
    isPlaying (this p') = isPlaying (this three_slides_due).
Proof.
  assert (Hdue : 5000 <= now three_slides_due) by done.
  split; [reflexivity|]. split; [exact Hdue|].
  destruct (X18_tick_is_next defaultOptions [false; false; false]
              three_slides_due 5000 three_slides_nonempty
              three_slides_due_reachable eq_refl) as [_ Htick].
  exact (Htick Hdue).
Defined.

Lemma X19_on_three_slides :
  swipe defaultOptions = true /\
  exists q,
    run [Event (touchstart 100 100); Event (touchmove 160 100);
         Event touchend] three_slides = Some q /\
    isPlaying (this q) = isPlaying (this three_slides) /\
    (is_Some (autoplayTimer (this q)) <->
     isPlaying (this three_slides) = true /\ autoplay defaultOptions = true /\
     1 < slideCount (this three_slides)).
Proof.
  split; [reflexivity|].
  destruct (X19_touch_suspends_autoplay defaultOptions [false; false; false]
              three_slides 100 100 160 100 three_slides_nonempty
              (reachable_constructed _ _ _) eq_refl) as (_ & _ & Hq).
  exact Hq.
Defined.
